(** * okcli: the SQL completer ([okcli/sqlcompleter.py])

    A shallow embedding of [SQLCompleter]: the metadata catalog
    ([dbmetadata], [all_completions] and the vocabularies), the scope
    resolver [populate_scoped_cols], the matcher [find_matches] and the
    dispatcher [get_completions], followed by the properties the
    specification states about them.

    Modelling conventions.
    - A Python [str] is a [string]; [upper] and [lower] act on the ASCII
      letters and leave every other character alone.
    - A Python [dict] keyed by strings is a [gmap string _]; a [set] of
      strings is a [gset string]; a Python list is a [list].
    - A method that mutates [self] is a function from the completer to the
      completer after the call, paired with the exception that left the
      call, if any.  The completer returned with an exception is the state
      the interrupted call leaves behind. *)

From Stdlib Require Import Ascii String ZArith List Permutation Sorted.
From stdpp Require Import base option list gmap sets strings sorting.

Local Open Scope Z_scope.
Local Open Scope nat_scope.

(** ** Python strings *)

Module Str.

Definition upper_char (c : ascii) : ascii :=
  let n := nat_of_ascii c in
  if (97 <=? n)%nat && (n <=? 122)%nat then ascii_of_nat (n - 32) else c.

Definition lower_char (c : ascii) : ascii :=
  let n := nat_of_ascii c in
  if (65 <=? n)%nat && (n <=? 90)%nat then ascii_of_nat (n + 32) else c.

Fixpoint smap (f : ascii → ascii) (s : string) : string :=
  match s with
  | EmptyString => EmptyString
  | String c s' => String (f c) (smap f s')
  end.

(** [s.upper()] and [s.lower()] *)
Definition upper : string → string := smap upper_char.
Definition lower : string → string := smap lower_char.

(** [len(s)] *)
Definition len : string → nat := String.length.

(** the characters of [s] as a Python iteration over a [str] yields
    them: one-character strings *)
Fixpoint chars (s : string) : list string :=
  match s with
  | EmptyString => []
  | String c s' => String c EmptyString :: chars s'
  end.

Fixpoint to_list (s : string) : list ascii :=
  match s with
  | EmptyString => []
  | String c s' => c :: to_list s'
  end.

Fixpoint of_list (l : list ascii) : string :=
  match l with
  | [] => EmptyString
  | c :: l' => String c (of_list l')
  end.

(** [s[1:-1]] for a string of at least two characters *)
Definition strip_ends (s : string) : string :=
  match to_list s with
  | [] => EmptyString
  | _ :: l => of_list (take (length l - 1) l)
  end.

Definition first_char (s : string) : option ascii := head (to_list s).
Definition last_char (s : string) : option ascii := last (to_list s).

(** a name is canonically uppercased when uppercasing leaves it alone *)
Definition is_upper (s : string) : Prop := upper s = s.

Global Instance is_upper_dec s : Decision (is_upper s).
Proof. unfold is_upper. apply _. Defined.

End Str.

(** ** The data model *)

(** What a catalog cell holds: the column list of a table or view
    ([['*', c1, ...]]), or [None] for a function. *)
Inductive pyval : Type :=
| PyList (cols : list string)
| PyNone.

Global Instance pyval_eq_dec : EqDecision pyval.
Proof. solve_decision. Defined.

(** The exceptions the modelled code can raise. *)
Inductive exn : Type :=
| KeyError
| IndexError
| ValueError
| TypeError
| AttributeError.

Global Instance exn_eq_dec : EqDecision exn.
Proof. solve_decision. Defined.

Inductive result (A : Type) : Type :=
| Ok (a : A)
| Raise (e : exn).
Global Arguments Ok {A} a.
Global Arguments Raise {A} e.

(** One object-kind map: schema name to object name to cell. *)
Abbreviation schema_map := (gmap string (gmap string pyval)).

(** [self.dbmetadata = {'tables': {}, 'views': {}, 'functions': {}}]:
    the outer dictionary is created with these three keys and no code
    adds or removes one, so it is a record of the three maps. *)
Record dbmeta : Type := DbMeta {
  md_tables : schema_map;
  md_views : schema_map;
  md_functions : schema_map
}.

Inductive kind : Type := Tables | Views | Functions.

Global Instance kind_eq_dec : EqDecision kind.
Proof. solve_decision. Defined.

(** the key of [dbmetadata] a string names; [None] is a [KeyError] *)
Definition kind_of_key (k : string) : option kind :=
  if decide (k = "tables") then Some Tables
  else if decide (k = "views") then Some Views
  else if decide (k = "functions") then Some Functions
  else None.

Definition key_of_kind (k : kind) : string :=
  match k with
  | Tables => "tables"
  | Views => "views"
  | Functions => "functions"
  end.

Definition md_get (k : kind) (md : dbmeta) : schema_map :=
  match k with
  | Tables => md_tables md
  | Views => md_views md
  | Functions => md_functions md
  end.

Definition md_set (k : kind) (m : schema_map) (md : dbmeta) : dbmeta :=
  match k with
  | Tables => DbMeta m (md_views md) (md_functions md)
  | Views => DbMeta (md_tables md) m (md_functions md)
  | Functions => DbMeta (md_tables md) (md_views md) m
  end.

(** A row of a metadata query: a tuple of names. *)
Abbreviation row := (list string).

(** A generator handed to an [extend_*] method: it yields rows and may
    raise while it is being consumed. *)
Inductive lazy_seq (A : Type) : Type :=
| Exhausted
| Yield (a : A) (rest : lazy_seq A)
| Raises.
Global Arguments Exhausted {A}.
Global Arguments Yield {A} a rest.
Global Arguments Raises {A}.

(** driving the generator to its end: the rows, or [None] when it raised *)
Fixpoint consume {A} (g : lazy_seq A) : option (list A) :=
  match g with
  | Exhausted => Some []
  | Yield a rest => cons a <$> consume rest
  | Raises => None
  end.

Fixpoint of_rows {A} (l : list A) : lazy_seq A :=
  match l with
  | [] => Exhausted
  | a :: l' => Yield a (of_rows l')
  end.

(** A table reference of a suggestion: [(schema, table, alias)]. *)
Record tblref : Type := TblRef {
  ref_schema : option string;
  ref_name : string;
  ref_alias : option string
}.

(** The completer.  [keywords] and [change_items] are attributes of the
    class that the instance reads and mutates through [self]; the other
    fields are instance attributes.  [reserved_words] and [name_pattern]
    are set by [__init__] and read by nothing in this file, and are left
    out. *)
Record SQLCompleter : Type := Completer {
  keywords : list string;
  change_items : list string;
  smart_completion : bool;
  special_commands : list string;
  table_formats : list string;
  databases : list string;
  users : list string;
  show_items : list string;
  dbname : string;
  dbmetadata : dbmeta;
  all_completions : gset string
}.

Definition with_dbmetadata (md : dbmeta) (self : SQLCompleter) : SQLCompleter :=
  Completer (keywords self) (change_items self) (smart_completion self)
    (special_commands self) (table_formats self) (databases self)
    (users self) (show_items self) (dbname self) md (all_completions self).

Definition with_all_completions (ac : gset string) (self : SQLCompleter)
  : SQLCompleter :=
  Completer (keywords self) (change_items self) (smart_completion self)
    (special_commands self) (table_formats self) (databases self)
    (users self) (show_items self) (dbname self) (dbmetadata self) ac.

Definition with_dbname (n : string) (self : SQLCompleter) : SQLCompleter :=
  Completer (keywords self) (change_items self) (smart_completion self)
    (special_commands self) (table_formats self) (databases self)
    (users self) (show_items self) n (dbmetadata self) (all_completions self).

(** ** The built-in vocabulary *)

Definition str_functions : list string :=
  ["ASCII"; "ASCIISTR"; "CHR"; "COMPOSE"; "CONCAT"; "CONVERT";
   "DECOMPOSE"; "DUMP"; "INITCAP"; "INSTR"; "INSTR2";
   "INSTR4"; "INSTRB"; "INSTRC";
   "LENGTH"; "LENGTH2"; "LENGTH4";
   "LENGTHB"; "LENGTHC"; "LOWER"; "LPAD"; "LTRIM"; "NCHR";
   "REGEXP_INSTR"; "REGEXP_REPLACE"; "REGEXP_SUBSTR";
   "REPLACE"; "RPAD"; "RTRIM"; "SOUNDEX"; "SUBSTR";
   "TRANSLATE"; "TRIM"; "UPPER"; "VSIZE"].

Definition num_functions : list string :=
  ["ABS"; "ACOS"; "ASIN"; "ATAN"; "ATAN2";
   "AVG"; "BITAND"; "CEIL"; "COS"; "COSH"; "COUNT"; "EXP";
   "FLOOR"; "GREATEST"; "LEAST"; "LN"; "LOG"; "MAX"; "MEDIAN";
   "MIN"; "MOD"; "POWER"; "REGEXP_COUNT"; "REMAINDER";
   "ROUND"; "ROWNUM"; "SIGN"; "SIN"; "SINH"; "SQRT"; "SUM";
   "TAN"; "TANH"; "TRUNC"].

Definition date_functions : list string :=
  ["ADD_MONTHS"; "CURRENT_DATE"; "CURRENT_TIMESTAMP";
   "DBTIMEZONE"; "EXTRACT"; "LAST_DAY"; "LOCALTIMESTAMP";
   "MONTHS_BETWEEN"; "NEW_TIME"; "NEXT_DAY"; "ROUND";
   "SESSIONTIMEZONE"; "SYSDATE"; "SYSTIMESTAMP"; "TRUNC";
   "TZ_OFFSET"].

Definition conv_functions : list string :=
  ["BIN_TO_NUM"; "CAST"; "CHARTOROWID"; "FROM_TZ";
   "HEXTORAW"; "NUMTODSINTERVAL"; "NUMTOYMINTERVAL";
   "RAWTOHEX"; "TO_CHAR"; "TO_CLOB"; "TO_DATE";
   "TO_DSINTERVAL"; "TO_LOB"; "TO_MULTI_BYTE"; "TO_NCLOB";
   "TO_NUMBER"; "TO_SINGLE_BYTE"; "TO_TIMESTAMP";
   "TO_TIMESTAMP_TZ"; "TO_YMINTERVAL"].

Definition analytic_functions : list string :=
  ["CORR"; "COVAR_POP"; "COVAR_SAMP"; "CUME_DIST";
   "DENSE_RANK"; "FIRST_VALUE"; "LAG"; "LAST_VALUE";
   "LEAD"; "LISTAGG"; "NTH_VALUE"; "RANK"; "STDDEV";
   "VAR_POP"; "VAR_SAMP"; "VARIANCE"].

Definition advanced_fuctions : list string :=
  ["BFILENAME"; "CARDINALITY"; "CASE"; "COALESCE";
   "DECODE"; "EMPTY_BLOB"; "EMPTY_CLOB"; "GROUP_ID";
   "LNNVL"; "NANVL"; "NULLIF"; "NVL"; "NVL2";
   "SYS_CONTEXT"; "UID"; "USER"; "USERENV"].

(** [sorted(l)] on strings: Python orders [str] by code point, which is
    [String.le]; the order is total and antisymmetric, so the sorted
    list is the only sorted arrangement of [l] and the sorting algorithm
    does not show. *)
Definition sorted_str (l : list string) : list string :=
  merge_sort String.le l.

(** [functions = sorted([x for x in {x for x in ...}])] *)
Definition functions : list string :=
  sorted_str (remove_dups (str_functions ++ num_functions ++ date_functions
    ++ conv_functions ++ analytic_functions ++ advanced_fuctions)).

(** ** The identifier normalizer *)

Definition escape_name (name : string) : string := name.

(** the double quote character, code point 34 *)
Definition dquote : ascii := ascii_of_nat 34.

(** [unescape_name]: drop one pair of surrounding double quotes *)
Definition unescape_name (name : string) : string :=
  match Str.first_char name, Str.last_char name with
  | Some a, Some b =>
      if decide (a = dquote) then
        if decide (b = dquote) then Str.strip_ends name else name
      else name
  | _, _ => name
  end.

Definition escaped_names (names : row) : row := escape_name <$> names.

(** ** The metadata catalog *)

Definition extend_special_commands (cmds : list string) (self : SQLCompleter)
  : SQLCompleter :=
  Completer (keywords self) (change_items self) (smart_completion self)
    (special_commands self ++ cmds) (table_formats self) (databases self)
    (users self) (show_items self) (dbname self) (dbmetadata self)
    (all_completions self).

Definition extend_database_names (dbs : list string) (self : SQLCompleter)
  : SQLCompleter :=
  Completer (keywords self) (change_items self) (smart_completion self)
    (special_commands self) (table_formats self) (databases self ++ dbs)
    (users self) (show_items self) (dbname self) (dbmetadata self)
    (all_completions self).

Definition extend_keywords (additional : list string) (self : SQLCompleter)
  : SQLCompleter :=
  Completer (keywords self ++ additional) (change_items self)
    (smart_completion self) (special_commands self) (table_formats self)
    (databases self) (users self) (show_items self) (dbname self)
    (dbmetadata self) (list_to_set additional ∪ all_completions self).

(** [for show_item in show_items: self.show_items.extend(show_item);
    self.all_completions.update(show_item)] *)
Definition extend_show_items (items : list row) (self : SQLCompleter)
  : SQLCompleter :=
  Completer (keywords self) (change_items self) (smart_completion self)
    (special_commands self) (table_formats self) (databases self)
    (users self) (show_items self ++ concat items) (dbname self)
    (dbmetadata self) (list_to_set (concat items) ∪ all_completions self).

Definition extend_change_items (items : list row) (self : SQLCompleter)
  : SQLCompleter :=
  Completer (keywords self) (change_items self ++ concat items)
    (smart_completion self) (special_commands self) (table_formats self)
    (databases self) (users self) (show_items self) (dbname self)
    (dbmetadata self) (list_to_set (concat items) ∪ all_completions self).

Definition extend_users (us : list row) (self : SQLCompleter) : SQLCompleter :=
  Completer (keywords self) (change_items self) (smart_completion self)
    (special_commands self) (table_formats self) (databases self)
    (users self ++ concat us) (show_items self) (dbname self)
    (dbmetadata self) (list_to_set (concat us) ∪ all_completions self).

(** [_extend_schemata]: [metadata[schema] = {}] in each of the three
    maps, then [self.all_completions.update(schema)], which iterates the
    string it is given and adds its characters. *)
Definition _extend_schemata (schema : string) (self : SQLCompleter)
  : SQLCompleter :=
  let schema := Str.upper schema in
  let md := dbmetadata self in
  let md' := DbMeta (<[schema := ∅]> (md_tables md))
                    (<[schema := ∅]> (md_views md))
                    (<[schema := ∅]> (md_functions md)) in
  with_all_completions (list_to_set (Str.chars schema) ∪ all_completions self)
    (with_dbmetadata md' self).

Definition extend_schemata (schemas : list string) (self : SQLCompleter)
  : SQLCompleter :=
  foldl (λ s schema, _extend_schemata schema s) self schemas.

(** [metadata[schema][name] = v]: [None] is the [KeyError] of
    [metadata[schema]] *)
Definition setitem2 (metadata : schema_map) (schema name : string) (v : pyval)
  : option schema_map :=
  match metadata !! schema with
  | Some objs => Some (<[schema := <[name := v]> objs]> metadata)
  | None => None
  end.

(** [metadata[schema][name]]: [None] is a [KeyError] *)
Definition getitem2 (metadata : schema_map) (schema name : string)
  : option pyval :=
  match metadata !! schema with
  | Some objs => objs !! name
  | None => None
  end.

(** [try: data = [self.escaped_names(d) for d in data]
     except Exception: data = []] *)
Definition escaped_rows (data : lazy_seq row) : list row :=
  match consume data with
  | Some rows => escaped_names <$> rows
  | None => []
  end.

(** the loop of [extend_relations] over the materialized rows *)
Fixpoint extend_relations_loop (k : kind) (schema : string) (data : list row)
    (self : SQLCompleter) : SQLCompleter * option exn :=
  match data with
  | [] => (self, None)
  | relname :: data' =>
      match relname with
      | [] => (self, Some IndexError)
      | name :: _ =>
          let self1 :=
            match setitem2 (md_get k (dbmetadata self)) schema name
                    (PyList ["*"]) with
            | Some m => with_dbmetadata (md_set k m (dbmetadata self)) self
            | None => self
            end in
          let self2 :=
            with_all_completions ({[name]} ∪ all_completions self1) self1 in
          extend_relations_loop k schema data' self2
      end
  end.

Definition extend_relations (data : lazy_seq row) (kind_key schema : string)
    (self : SQLCompleter) : SQLCompleter * option exn :=
  let schema := Str.upper schema in
  let data := escaped_rows data in
  match kind_of_key kind_key with
  | None => (self, Some KeyError)
  | Some k => extend_relations_loop k schema data self
  end.

(** the loop of [extend_columns]:
    [for relname, column in column_data:
       metadata[schema][relname].append(column)
       self.all_completions.add(column)] *)
Fixpoint extend_columns_loop (k : kind) (schema : string) (data : list row)
    (self : SQLCompleter) : SQLCompleter * option exn :=
  match data with
  | [] => (self, None)
  | [relname; column] :: data' =>
      match getitem2 (md_get k (dbmetadata self)) schema relname with
      | None => (self, Some KeyError)
      | Some PyNone => (self, Some AttributeError)
      | Some (PyList cols) =>
          let m := md_get k (dbmetadata self) in
          let objs := default ∅ (m !! schema) in
          let m' := <[schema := <[relname := PyList (cols ++ [column])]> objs]> m in
          let self1 := with_dbmetadata (md_set k m' (dbmetadata self)) self in
          let self2 :=
            with_all_completions ({[column]} ∪ all_completions self1) self1 in
          extend_columns_loop k schema data' self2
      end
  | _ :: _ => (self, Some ValueError)
  end.

Definition extend_columns (column_data : lazy_seq row) (kind_key schema : string)
    (self : SQLCompleter) : SQLCompleter * option exn :=
  let schema := Str.upper schema in
  let column_data := escaped_rows column_data in
  match kind_of_key kind_key with
  | None => (self, Some KeyError)
  | Some k => extend_columns_loop k schema column_data self
  end.

(** the loop of [extend_functions]; the schema is used as it comes:
    [metadata[schema][func[0]] = None] evaluates [metadata[schema]]
    before [func[0]] *)
Fixpoint extend_functions_loop (schema : string) (data : list row)
    (self : SQLCompleter) : SQLCompleter * option exn :=
  match data with
  | [] => (self, None)
  | func :: data' =>
      let m := md_functions (dbmetadata self) in
      match m !! schema with
      | None => (self, Some KeyError)
      | Some objs =>
          match func with
          | [] => (self, Some IndexError)
          | name :: _ =>
              let m' := <[schema := <[name := PyNone]> objs]> m in
              let self1 :=
                with_dbmetadata (md_set Functions m' (dbmetadata self)) self in
              let self2 :=
                with_all_completions ({[name]} ∪ all_completions self1) self1 in
              extend_functions_loop schema data' self2
          end
      end
  end.

Definition extend_functions (func_data : lazy_seq row) (schema : string)
    (self : SQLCompleter) : SQLCompleter * option exn :=
  extend_functions_loop schema (escaped_rows func_data) self.

Definition set_dbname (name : string) (self : SQLCompleter) : SQLCompleter :=
  with_dbname (Str.upper name) self.

Definition reset_completions (self : SQLCompleter) : SQLCompleter :=
  Completer (keywords self) (change_items self) (smart_completion self)
    (special_commands self) (table_formats self)
    [] [] [] "" (DbMeta ∅ ∅ ∅)
    (list_to_set (keywords self ++ functions)).

(** [__init__]: [oracle_keywords] is the list [okcli.lexer] exports and
    [cls_change_items] the list the class holds when the instance is
    made. *)
Definition init (oracle_keywords cls_change_items : list string)
    (smart : bool) (supported_formats : list string) : SQLCompleter :=
  reset_completions
    (Completer oracle_keywords cls_change_items smart [] supported_formats
       [] [] [] "" (DbMeta ∅ ∅ ∅) ∅).

(** ** The scope resolver *)

(** [tbl[0] or self.dbname]: [None] and the empty string are falsy *)
Definition py_or (o : option string) (d : string) : string :=
  match o with
  | Some s => if decide (s = "") then d else s
  | None => d
  end.

(** [columns.extend(v)]; a [None] cell is not iterable *)
Definition list_extend (columns : list string) (v : pyval)
  : result (list string) :=
  match v with
  | PyList cols => Ok (columns ++ cols)
  | PyNone => Raise TypeError
  end.

Fixpoint populate_scoped_cols_loop (self : SQLCompleter)
    (scoped_tbls : list tblref) (columns : list string)
  : result (list string) :=
  match scoped_tbls with
  | [] => Ok columns
  | tbl :: rest =>
      let meta := dbmetadata self in
      let schema := Str.upper (py_or (ref_schema tbl) (dbname self)) in
      let relname := ref_name tbl in
      let escaped_relname := escape_name (ref_name tbl) in
      match getitem2 (md_tables meta) schema relname with
      | Some v =>
          match list_extend columns v with
          | Ok columns' => populate_scoped_cols_loop self rest columns'
          | Raise e => Raise e
          end
      | None =>
          match getitem2 (md_tables meta) schema escaped_relname with
          | Some v =>
              match list_extend columns v with
              | Ok columns' => populate_scoped_cols_loop self rest columns'
              | Raise e => Raise e
              end
          | None =>
              match getitem2 (md_views meta) schema relname with
              | Some v =>
                  match list_extend columns v with
                  | Ok columns' => populate_scoped_cols_loop self rest columns'
                  | Raise e => Raise e
                  end
              | None => populate_scoped_cols_loop self rest columns
              end
          end
      end
  end.

Definition populate_scoped_cols (self : SQLCompleter)
    (scoped_tbls : list tblref) : result (list string) :=
  populate_scoped_cols_loop self scoped_tbls [].

(** the keys of a dictionary; their order does not reach a caller, every
    use goes through [sorted] *)
Definition dict_keys {V} (m : gmap string V) : list string :=
  elements (dom m).

Definition populate_schema_objects (self : SQLCompleter)
    (schema : option string) (obj_type : string) : result (list string) :=
  match kind_of_key obj_type with
  | None => Raise KeyError
  | Some k =>
      let metadata := md_get k (dbmetadata self) in
      let schema := Str.upper (py_or schema (dbname self)) in
      match metadata !! schema with
      | Some objs => Ok (dict_keys objs)
      | None => Ok []
      end
  end.

(** [collections.Counter]: the distinct elements in the order of their
    first occurrence, each with its number of occurrences *)
Fixpoint counter_incr (x : string) (c : list (string * nat))
  : list (string * nat) :=
  match c with
  | [] => [(x, 1)]
  | (y, n) :: c' =>
      if decide (x = y) then (y, S n) :: c' else (y, n) :: counter_incr x c'
  end.

Definition Counter (l : list string) : list (string * nat) :=
  foldl (λ c x, counter_incr x c) [] l.

(** [[col for (col, count) in Counter(scoped_cols).items()
      if count > 1 and col != '*']] *)
Definition drop_unique_cols (scoped_cols : list string) : list string :=
  omap (λ '(col, count),
          if decide (1 < count) then
            if decide (col ≠ "*") then Some col else None
          else None)
       (Counter scoped_cols).

(** ** The matcher *)

(** [prompt_toolkit.completion.Completion(text, start_position)] *)
Record Completion : Type := MkCompletion {
  text : string;
  start_position : Z
}.

Global Instance Completion_eq_dec : EqDecision Completion.
Proof. solve_decision. Defined.

Definition newline : ascii := ascii_of_nat 10.

(** [s.startswith(sub)] on character lists *)
Fixpoint starts_with (sub s : list ascii) : bool :=
  match sub, s with
  | [], _ => true
  | a :: sub', c :: s' => if decide (a = c) then starts_with sub' s' else false
  | _ :: _, [] => false
  end.

(** [s.find(sub)]: the lowest index at which [sub] occurs, [None] for -1 *)
Fixpoint str_find (sub s : list ascii) : option nat :=
  if starts_with sub s then Some 0
  else match s with
       | [] => None
       | _ :: s' => S <$> str_find sub s'
       end.

(** [s.find(sub, 0, limit)]: the search is confined to [s[0:limit]] *)
Definition str_find_in (sub s : list ascii) (limit : option nat) : option nat :=
  match limit with
  | Some n => str_find sub (take n s)
  | None => str_find sub s
  end.

(** The pattern [pat] of the fuzzy branch is
    [(c0.*?c1.*?...cn)], each character escaped so that it stands for
    itself.  [lazy_tail [c1;...;cn] s] matches [.*?c1...*?cn] against a
    prefix of [s] the way a backtracking matcher does: each [.*?] takes
    the fewest characters that let the rest match, and takes no
    newline.  The result is the number of characters consumed. *)
Fixpoint lazy_tail (tok : list ascii) : list ascii → option nat :=
  match tok with
  | [] => λ _, Some 0
  | d :: tok' =>
      fix skip (s : list ascii) : option nat :=
        match s with
        | [] => None
        | c :: s' =>
            match (if decide (c = d) then lazy_tail tok' s' else None) with
            | Some n => Some (S n)
            | None => if decide (c = newline) then None else S <$> skip s'
            end
        end
  end.

(** the pattern matched at the head of [s] *)
Definition match_at (tok s : list ascii) : option nat :=
  match tok with
  | [] => Some 0
  | c0 :: tok' =>
      match s with
      | [] => None
      | c :: s' => if decide (c = c0) then S <$> lazy_tail tok' s' else None
      end
  end.

(** [pat.search(s)]: the leftmost position at which the pattern matches,
    as [(r.start(), len(r.group()))] *)
Fixpoint re_search (tok s : list ascii) : option (nat * nat) :=
  match match_at tok s with
  | Some n => Some (0, n)
  | None =>
      match s with
      | [] => None
      | _ :: s' => (λ r, (S r.1, r.2)) <$> re_search tok s'
      end
  end.

(** The tuples [(length, start, item)] that [find_matches] sorts; Python
    compares tuples lexicographically. *)
Abbreviation scored := (nat * nat * string)%type.

Definition scored_le (a b : scored) : Prop :=
  a.1.1 < b.1.1 ∨
  (a.1.1 = b.1.1 ∧ (a.1.2 < b.1.2 ∨ (a.1.2 = b.1.2 ∧ String.le a.2 b.2))).

Global Instance scored_le_dec : RelDecision scored_le.
Proof. intros a b. unfold scored_le. apply _. Defined.

(** the score of one candidate against the lowercased token, [None]
    when the candidate does not match *)
Definition score (tok : string) (start_only fuzzy : bool) (item : string)
  : option scored :=
  if fuzzy then
    match re_search (Str.to_list tok) (Str.to_list (Str.lower item)) with
    | Some (start, n) => Some (n, start, item)
    | None => None
    end
  else
    let match_end_limit := if start_only then Some (Str.len tok) else None in
    match str_find_in (Str.to_list tok) (Str.to_list (Str.lower item))
            match_end_limit with
    | Some match_point => Some (Str.len tok, match_point, item)
    | None => None
    end.

Section Matcher.

(** [okcli.packages.parseutils.last_word(text, include='most_punctuations')]
    is not part of the sources at hand; the matcher is modelled over
    any such function. *)
Variable last_word : string → string.

Definition find_matches (text : string) (collection : list string)
    (start_only fuzzy : bool) : list Completion :=
  let text := Str.lower (last_word text) in
  let completions :=
    omap (score text start_only fuzzy) (sorted_str collection) in
  (λ c : scored, MkCompletion c.2 (- Z.of_nat (Str.len text)))
    <$> merge_sort scored_le completions.

End Matcher.

(** ** The dispatcher *)

(** A suggestion as [suggest_type] (of [packages.completion_engine],
    outside the sources at hand) hands it over: the dictionary keys
    ['type'], ['tables'], ['schema'], ['aliases'] and ['drop_unique'];
    a key the type does not use holds the empty value. *)
Record suggestion : Type := Suggestion {
  sg_type : string;
  sg_tables : list tblref;
  sg_schema : option string;
  sg_aliases : list string;
  sg_drop_unique : bool
}.

(** [not suggestion['schema']] *)
Definition no_schema (o : option string) : bool :=
  match o with
  | Some s => bool_decide (s = "")
  | None => true
  end.

Section Dispatcher.

Variable last_word : string → string.

(** [favoritequeries.list()], of [packages.special.favoritequeries] *)
Variable favoritequeries_list : list string.

Let matches := find_matches last_word.

(** one turn of the loop of [get_completions]: the completions the
    suggestion contributes *)
Definition suggestion_completions (self : SQLCompleter)
    (word_before_cursor : string) (sg : suggestion)
  : result (list Completion) :=
  let ty := sg_type sg in
  if decide (ty = "column") then
    match populate_scoped_cols self (sg_tables sg) with
    | Raise e => Raise e
    | Ok scoped_cols =>
        let scoped_cols :=
          if sg_drop_unique sg then drop_unique_cols scoped_cols
          else scoped_cols in
        Ok (matches word_before_cursor scoped_cols false true)
    end
  else if decide (ty = "function") then
    match populate_schema_objects self (sg_schema sg) "functions" with
    | Raise e => Raise e
    | Ok funcs =>
        let user_funcs := matches word_before_cursor funcs false true in
        let predefined_funcs :=
          if no_schema (sg_schema sg)
          then matches word_before_cursor functions true false
          else [] in
        Ok (user_funcs ++ predefined_funcs)
    end
  else if decide (ty = "table") then
    match populate_schema_objects self (sg_schema sg) "tables" with
    | Raise e => Raise e
    | Ok tables => Ok (matches word_before_cursor tables false true)
    end
  else if decide (ty = "view") then
    match populate_schema_objects self (sg_schema sg) "views" with
    | Raise e => Raise e
    | Ok views => Ok (matches word_before_cursor views false true)
    end
  else if decide (ty = "alias") then
    Ok (matches word_before_cursor (sg_aliases sg) false true)
  else if decide (ty = "database" ∨ ty = "schema") then
    Ok (matches word_before_cursor (databases self) false true)
  else if decide (ty = "keyword") then
    Ok (matches word_before_cursor (keywords self) true false)
  else if decide (ty = "show") then
    Ok (matches word_before_cursor (show_items self) false true)
  else if decide (ty = "change") then
    Ok (matches word_before_cursor (change_items self) false true)
  else if decide (ty = "user") then
    Ok (matches word_before_cursor (users self) false true)
  else if decide (ty = "special") then
    Ok (matches word_before_cursor (special_commands self) true false)
  else if decide (ty = "favoritequery") then
    Ok (matches word_before_cursor favoritequeries_list false true)
  else if decide (ty = "table_format") then
    Ok (matches word_before_cursor (table_formats self) true false)
  else Ok [].

Fixpoint get_completions_loop (self : SQLCompleter)
    (word_before_cursor : string) (suggestions : list suggestion)
    (completions : list Completion) : result (list Completion) :=
  match suggestions with
  | [] => Ok completions
  | sg :: rest =>
      match suggestion_completions self word_before_cursor sg with
      | Raise e => Raise e
      | Ok cs =>
          get_completions_loop self word_before_cursor rest
            (completions ++ cs)
      end
  end.

(** [get_completions]: [word_before_cursor] is
    [document.get_word_before_cursor(WORD=True)] and [suggestions] is
    what [suggest_type] returns for the document. *)
Definition get_completions (self : SQLCompleter)
    (word_before_cursor : string) (suggestions : list suggestion)
    (smart : option bool) : result (list Completion) :=
  let smart_completion := default (smart_completion self) smart in
  if negb smart_completion then
    Ok (matches word_before_cursor (elements (all_completions self))
          true false)
  else get_completions_loop self word_before_cursor suggestions [].

End Dispatcher.

(** Modelled from the spec: [last_word] of [packages/parseutils] is
    missing; the specification describes it as the last contiguous word
    of the input, where every character that is neither alphanumeric
    nor an underscore is a word boundary.  It serves to run the matcher
    on concrete inputs. *)
Definition is_word_char (c : ascii) : bool :=
  let n := nat_of_ascii c in
  ((48 <=? n) && (n <=? 57)) || ((65 <=? n) && (n <=? 90))
  || ((97 <=? n) && (n <=? 122)) || (n =? 95).

Fixpoint last_word_go (cur : list ascii) (s : list ascii) : list ascii :=
  match s with
  | [] => cur
  | c :: s' =>
      if is_word_char c then last_word_go (cur ++ [c]) s'
      else last_word_go [] s'
  end.

Definition last_word_spec (text : string) : string :=
  Str.of_list (last_word_go [] (Str.to_list text)).

(** ** Notions the properties are stated with *)

(** the order in which [find_matches] returns its completions: the
    scores of the two candidates, compared as Python compares tuples *)
Definition ranked_le (tok : string) (start_only fuzzy : bool)
    (c1 c2 : Completion) : Prop :=
  match score tok start_only fuzzy (text c1),
        score tok start_only fuzzy (text c2) with
  | Some k1, Some k2 => scored_le k1 k2
  | _, _ => False
  end.

(** the cells of a map are column lists: no cell is [None] *)
Definition cols_only (m : schema_map) : Prop :=
  ∀ schema name, getitem2 m schema name ≠ Some PyNone.

(** the schema a reference resolves to: the explicit schema, else the
    current database, uppercased *)
Definition resolved_schema (self : SQLCompleter) (tbl : tblref) : string :=
  Str.upper (py_or (ref_schema tbl) (dbname self)).

(** the columns a map stores for a relation, [None] when the schema or
    the relation is absent *)
Definition stored_cols (m : schema_map) (schema name : string)
  : option (list string) :=
  match getitem2 m schema name with
  | Some (PyList cols) => Some cols
  | _ => None
  end.

(** The resolution of one reference as the specification words it:
    look the relation up under [tables[schema]], then under the escaped
    form of its name, then under [views[schema]]; no columns when it is
    in neither. *)
Definition resolve_ref_spec (self : SQLCompleter) (tbl : tblref) : list string :=
  let schema := resolved_schema self tbl in
  match stored_cols (md_tables (dbmetadata self)) schema (ref_name tbl) with
  | Some cols => cols
  | None =>
      match stored_cols (md_tables (dbmetadata self)) schema
              (escape_name (ref_name tbl)) with
      | Some cols => cols
      | None =>
          match stored_cols (md_views (dbmetadata self)) schema (ref_name tbl) with
          | Some cols => cols
          | None => []
          end
      end
  end.

Inductive op : Type :=
| OpSchemata (schemas : list string)
| OpRelations (data : lazy_seq row) (kind_key schema : string)
| OpColumns (column_data : lazy_seq row) (kind_key schema : string)
| OpFunctions (func_data : lazy_seq row) (schema : string)
| OpSetDbname (name : string).

(** one call; when it raises, the catalog is as the call left it *)
Definition run_op (o : op) (self : SQLCompleter) : SQLCompleter :=
  match o with
  | OpSchemata schemas => extend_schemata schemas self
  | OpRelations data kind_key schema =>
      (extend_relations data kind_key schema self).1
  | OpColumns column_data kind_key schema =>
      (extend_columns column_data kind_key schema self).1
  | OpFunctions func_data schema => (extend_functions func_data schema self).1
  | OpSetDbname name => set_dbname name self
  end.

Definition run_ops (ops : list op) (self : SQLCompleter) : SQLCompleter :=
  foldl (λ s o, run_op o s) self ops.

(** every schema key of a map is canonically uppercased *)
Definition keys_upper (m : schema_map) : Prop :=
  ∀ schema, schema ∈ dom m → Str.is_upper schema.

(** every object name of a map is canonically uppercased *)
Definition names_upper (m : schema_map) : Prop :=
  ∀ schema name, is_Some (getitem2 m schema name) → Str.is_upper name.

Definition catalog_keys_upper (self : SQLCompleter) : Prop :=
  ∀ k, keys_upper (md_get k (dbmetadata self)).

Definition catalog_names_upper (self : SQLCompleter) : Prop :=
  ∀ k, names_upper (md_get k (dbmetadata self)).

(** the tables and the views hold column lists *)
Definition catalog_cols_only (self : SQLCompleter) : Prop :=
  cols_only (md_tables (dbmetadata self))
  ∧ cols_only (md_views (dbmetadata self)).

(** a property of the three maps of the catalog, kind by kind *)
Definition catalog_inv (P : kind → schema_map → Prop) (self : SQLCompleter)
  : Prop :=
  ∀ k, P k (md_get k (dbmetadata self)).

(** A catalog to run the code on: schema [HR], the current database,
    with the tables [EMPLOYEES] and [DEPARTMENTS] and the view [EMP_V]. *)
Definition hr_ops : list op :=
  [OpSetDbname "hr";
   OpSchemata ["hr"];
   OpRelations (of_rows [["EMPLOYEES"]; ["DEPARTMENTS"]]) "tables" "hr";
   OpRelations (of_rows [["EMP_V"]]) "views" "hr";
   OpColumns (of_rows [["EMPLOYEES"; "EMPLOYEE_ID"];
                       ["EMPLOYEES"; "FIRST_NAME"];
                       ["EMPLOYEES"; "LAST_NAME"];
                       ["EMPLOYEES"; "DEPARTMENT_ID"];
                       ["DEPARTMENTS"; "DEPARTMENT_ID"];
                       ["DEPARTMENTS"; "NAME"]]) "tables" "hr";
   OpColumns (of_rows [["EMP_V"; "FIRST_NAME"]]) "views" "hr"].

Definition hr_catalog : SQLCompleter :=
  run_ops hr_ops (init ["FROM"; "SELECT"] [] true []).

(** the number of occurrences of a column name in a column list *)
Definition count_of (x : string) (l : list string) : nat :=
  length (filter (λ y, y = x) l).

(** the count a [Counter] holds for a key, 0 for a key it lacks *)
Fixpoint counter_get (x : string) (c : list (string * nat)) : nat :=
  match c with
  | [] => 0
  | (y, n) :: c' => if decide (x = y) then n else counter_get x c'
  end.

(** candidate [a] comes before candidate [b] in a list of completions *)
Definition ranked_before (a b : string) (cs : list Completion) : Prop :=
  ∃ i j, i < j ∧ text <$> cs !! i = Some a ∧ text <$> cs !! j = Some b.

(** whether a candidate matches the token at all *)
Definition matched (tok : string) (start_only fuzzy : bool) (item : string)
  : Prop :=
  is_Some (score tok start_only fuzzy item).

Global Instance matched_dec tok so fz item : Decision (matched tok so fz item).
Proof. unfold matched. apply _. Defined.

(** the completion [find_matches] builds for a candidate *)
Definition completion_of (tok : string) (item : string) : Completion :=
  MkCompletion item (- Z.of_nat (Str.len tok)).

(** a name between double quotes *)
Definition quote_name (s : string) : string :=
  String dquote (s +:+ String dquote EmptyString).

(** the names a batch of rows registers: the first field of each row *)
Definition heads (rows : list row) : list string := omap head rows.

(** the rows of a column batch as pairs [(relname, column)] *)
Definition pair_rows (pairs : list (string * string)) : list row :=
  (λ p, [p.1; p.2]) <$> pairs.

(** the columns a batch holds for a relation, in the order of the batch *)
Definition cols_for (relname : string) (pairs : list (string * string))
  : list string :=
  (filter (λ p, p.1 = relname) pairs).*2.

(** what [extend_columns] makes of a cell that gains the columns [cs] *)
Definition cell_append (cs : list string) (v : pyval) : pyval :=
  match v with
  | PyList cols => PyList (cols ++ cs)
  | PyNone => PyNone
  end.

(** a cell is a column list that starts with the wildcard, or the
    [None] of a function *)
Definition cell_ok (k : kind) (v : pyval) : Prop :=
  match v with
  | PyList cols => head cols = Some "*"
  | PyNone => k = Functions
  end.

Definition cells_ok (k : kind) (m : schema_map) : Prop :=
  ∀ schema name v, getitem2 m schema name = Some v → cell_ok k v.

(** the types [get_completions] has a branch for *)
Definition known_types : list string :=
  ["column"; "function"; "table"; "view"; "alias"; "database"; "schema";
   "keyword"; "show"; "change"; "user"; "special"; "favoritequery";
   "table_format"].

(** * Properties *)

(** ** Strings *)

Lemma upper_char_idemp c : Str.upper_char (Str.upper_char c) = Str.upper_char c.
Proof. destruct c as [[] [] [] [] [] [] [] []]; reflexivity. Qed.

Lemma upper_idemp s : Str.upper (Str.upper s) = Str.upper s.
Proof.
  induction s as [|c s IH]; simpl; [done|].
  unfold Str.upper in *. simpl. by rewrite upper_char_idemp, IH.
Qed.

Lemma upper_is_upper s : Str.is_upper (Str.upper s).
Proof. apply upper_idemp. Qed.

Lemma of_to_list s : Str.of_list (Str.to_list s) = s.
Proof. induction s; simpl; by f_equal. Qed.

Lemma to_list_length s : length (Str.to_list s) = Str.len s.
Proof. induction s; simpl; by f_equal. Qed.

(** ** The order on scored candidates *)

Global Instance scored_le_trans : Transitive scored_le.
Proof.
  intros [[x1 y1] z1] [[x2 y2] z2] [[x3 y3] z3]. unfold scored_le. simpl.
  intros H1 H2.
  destruct H1 as [H1|[-> H1]]; destruct H2 as [H2|[-> H2]];
    [left; lia | by left | by left | right; split; [done|]].
  destruct H1 as [H1|[-> H1]]; destruct H2 as [H2|[-> H2]];
    [left; lia | by left | by left | right; split; [done|]].
  by etrans.
Qed.

Global Instance scored_le_antisym : AntiSymm (=) scored_le.
Proof.
  intros [[x1 y1] z1] [[x2 y2] z2]. unfold scored_le. simpl.
  intros [H1|[-> [H1|[-> H1]]]] [H2|[E2 [H2|[E3 H2]]]]; try lia.
  f_equal. by apply (anti_symm String.le).
Qed.

Global Instance scored_le_total : Total scored_le.
Proof.
  intros [[x1 y1] z1] [[x2 y2] z2]. unfold scored_le. simpl.
  destruct (lt_eq_lt_dec x1 x2) as [[?| ->]|?]; [by left; left| |by right; left].
  destruct (lt_eq_lt_dec y1 y2) as [[?| ->]|?];
    [by left; right; split; [|left]
    |
    |by right; right; split; [|left]].
  destruct (total String.le z1 z2); [left|right]; right; split; auto.
Qed.

(** ** Sorting does not depend on the order of its input *)

Lemma sorted_str_perm (l1 l2 : list string) :
  l1 ≡ₚ l2 → sorted_str l1 = sorted_str l2.
Proof.
  intros Hp. unfold sorted_str.
  apply (Sorted_unique String.le).
  - apply Sorted_merge_sort, _.
  - apply Sorted_merge_sort, _.
  - by rewrite !merge_sort_Permutation.
Qed.

Lemma sort_scored_perm (l1 l2 : list scored) :
  l1 ≡ₚ l2 → merge_sort scored_le l1 = merge_sort scored_le l2.
Proof.
  intros Hp. apply (Sorted_unique scored_le).
  - apply Sorted_merge_sort, _.
  - apply Sorted_merge_sort, _.
  - by rewrite !merge_sort_Permutation.
Qed.

Lemma elem_of_sorted_str (x : string) l : x ∈ sorted_str l ↔ x ∈ l.
Proof. unfold sorted_str. by rewrite merge_sort_Permutation. Qed.

(** ** The score of a candidate *)

Lemma score_item tok so fz item k : score tok so fz item = Some k → k.2 = item.
Proof.
  unfold score. intros H.
  destruct fz.
  - destruct (re_search _ _) as [[st n]|]; by simplify_eq.
  - destruct (str_find_in _ _ _); by simplify_eq.
Qed.

Lemma starts_with_prefix sub s : starts_with sub s = true ↔ sub `prefix_of` s.
Proof.
  revert s. induction sub as [|a sub IH]; intros s; simpl.
  - split; [intros _; apply prefix_nil | done].
  - destruct s as [|c s].
    + split; [done|]. intros H. by apply prefix_nil_not in H.
    + destruct (decide (a = c)) as [->|Hne].
      * rewrite IH. split; [apply prefix_cons | apply prefix_cons_inv_2].
      * split; [done|]. intros H. by apply prefix_cons_inv_1 in H.
Qed.

(** a match confined to the first [length sub] characters is a prefix *)
Lemma str_find_take_prefix sub s p :
  str_find sub (take (length sub) s) = Some p → p = 0 ∧ sub `prefix_of` s.
Proof.
  intros H.
  assert (Hp : ∀ l q, str_find sub l = Some q → length sub + q ≤ length l).
  { clear. intros l. induction l as [|c l IH]; intros q; simpl.
    - destruct (starts_with sub []) eqn:E; [|done].
      intros [= <-]. apply starts_with_prefix, prefix_length in E. simpl in *. lia.
    - destruct (starts_with sub (c :: l)) eqn:E.
      + intros [= <-]. apply starts_with_prefix, prefix_length in E.
        simpl in *. lia.
      + destruct (str_find sub l) as [q'|] eqn:E'; [|done].
        simpl. intros [= <-]. specialize (IH _ eq_refl). lia. }
  pose proof (Hp _ _ H) as Hlen. rewrite length_take in Hlen.
  assert (p = 0) as -> by lia. split; [done|].
  destruct (take (length sub) s) as [|c l] eqn:Et; simpl in H.
  - destruct (starts_with sub []) eqn:E; [|done].
    apply starts_with_prefix in E. apply prefix_nil_inv in E as ->.
    apply prefix_nil.
  - destruct (starts_with sub (c :: l)) eqn:E.
    + apply starts_with_prefix in E. rewrite <- Et in E.
      etrans; [exact E|]. apply prefix_take.
    + destruct (str_find sub l); done.
Qed.

(** a fuzzy match picks the token out of the candidate as a subsequence *)
Lemma lazy_tail_sublist tok s n : lazy_tail tok s = Some n → tok `sublist_of` s.
Proof.
  revert s n. induction tok as [|d tok IH]; intros s n; simpl.
  - intros _. apply sublist_nil_l.
  - induction s as [|c s IHs] in n |- *; [done|].
    destruct (decide (c = d)) as [->|Hne].
    + destruct (lazy_tail tok s) as [m|] eqn:E.
      * intros _. apply sublist_skip. by eapply IH.
      * destruct (decide (d = newline)); [done|].
        destruct ((fix skip (s0 : list ascii) : option nat := _) s) eqn:E';
          [|done].
        intros _. apply sublist_cons. by eapply IHs.
    + destruct (decide (c = newline)); [done|].
      destruct ((fix skip (s0 : list ascii) : option nat := _) s) eqn:E';
        [|done].
      intros _. apply sublist_cons. by eapply IHs.
Qed.

Lemma match_at_sublist tok s n : match_at tok s = Some n → tok `sublist_of` s.
Proof.
  destruct tok as [|c0 tok]; simpl; [intros _; apply sublist_nil_l|].
  destruct s as [|c s]; [done|].
  destruct (decide (c = c0)) as [->|]; [|done].
  destruct (lazy_tail tok s) eqn:E; [|done].
  intros _. apply sublist_skip. by eapply lazy_tail_sublist.
Qed.

Lemma re_search_sublist tok s r : re_search tok s = Some r → tok `sublist_of` s.
Proof.
  revert r. induction s as [|c s IH]; intros r; simpl.
  - destruct (match_at tok []) eqn:E; [|done].
    intros _. by eapply match_at_sublist.
  - destruct (match_at tok (c :: s)) eqn:E.
    + intros _. by eapply match_at_sublist.
    + destruct (re_search tok s) eqn:E'; [|done].
      intros _. apply sublist_cons. by eapply IH.
Qed.

(** ** The matcher *)

Section MatcherFacts.

Variable last_word : string → string.

Lemma elem_of_find_matches input col so fz c :
  c ∈ find_matches last_word input col so fz ↔
  ∃ item k, item ∈ col
    ∧ score (Str.lower (last_word input)) so fz item = Some k
    ∧ c = MkCompletion item (- Z.of_nat (Str.len (Str.lower (last_word input)))).
Proof.
  unfold find_matches. rewrite list_elem_of_fmap. split.
  - intros (k & -> & Hk). rewrite merge_sort_Permutation in Hk.
    apply list_elem_of_omap in Hk as (item & Hitem & Hs).
    rewrite elem_of_sorted_str in Hitem.
    exists item, k. by rewrite (score_item _ _ _ _ _ Hs).
  - intros (item & k & Hitem & Hs & ->). exists k. split.
    + by rewrite (score_item _ _ _ _ _ Hs).
    + rewrite merge_sort_Permutation. apply list_elem_of_omap.
      exists item. by rewrite elem_of_sorted_str.
Qed.

Lemma find_matches_perm input col col' so fz :
  col ≡ₚ col' →
  find_matches last_word input col so fz = find_matches last_word input col' so fz.
Proof.
  intros Hp. unfold find_matches. by rewrite (sorted_str_perm _ _ Hp).
Qed.

End MatcherFacts.


Lemma StronglySorted_and {A} (R : relation A) (P : A → Prop) l :
  StronglySorted R l → Forall P l →
  StronglySorted (λ a b, R a b ∧ P a ∧ P b) l.
Proof.
  induction 1 as [|a l Hs IH Ha]; intros HP; [constructor|].
  apply Forall_cons in HP as [Pa Pl]. constructor; [by apply IH|].
  rewrite Forall_forall in Ha, Pl. apply Forall_forall. intros b Hb.
  split; [by apply Ha|]. split; [done|by apply Pl].
Qed.

Lemma find_matches_sorted last_word input col so fz :
  StronglySorted (ranked_le (Str.lower (last_word input)) so fz)
    (find_matches last_word input col so fz).
Proof.
  unfold find_matches.
  set (tok := Str.lower (last_word input)).
  set (ks := omap (score tok so fz) (sorted_str col)).
  assert (Hall : Forall (λ k : scored, score tok so fz k.2 = Some k)
                   (merge_sort scored_le ks)).
  { apply Forall_forall. intros k Hk. rewrite merge_sort_Permutation in Hk.
    apply list_elem_of_omap in Hk as (item & _ & Hs).
    by rewrite (score_item _ _ _ _ _ Hs). }
  pose proof (StronglySorted_merge_sort scored_le ks) as Hs.
  pose proof (StronglySorted_and _ _ _ Hs Hall) as Hs'.
  eapply StronglySorted_fmap; [|exact Hs'].
  intros k1 k2 (Hle & H1 & H2). unfold ranked_le. simpl.
  by rewrite H1, H2.
Qed.

(** C3.  Soundness of [find_matches].  With [fuzzy=False] and
    [start_only=True] every completion returned is a candidate of the
    collection whose lowercased text begins with the token (the
    lowercased last word of the input); with [fuzzy=True] every
    completion returned is a candidate whose lowercased text holds the
    characters of the token as a subsequence, so a candidate without
    such a subsequence is never returned. *)
Theorem find_matches_sound (last_word : string → string)
    (input : string) (col : list string) (c : Completion) :
  let tok := Str.to_list (Str.lower (last_word input)) in
  let cand := Str.to_list (Str.lower (text c)) in
  (c ∈ find_matches last_word input col true false →
     text c ∈ col ∧ tok `prefix_of` cand)
  ∧ (∀ start_only, c ∈ find_matches last_word input col start_only true →
     text c ∈ col ∧ tok `sublist_of` cand)
  ∧ (∀ start_only, ¬ tok `sublist_of` cand →
     c ∉ find_matches last_word input col start_only true).
Proof.
  intros tok cand.
  assert (Hfz : ∀ start_only,
            c ∈ find_matches last_word input col start_only true →
            text c ∈ col ∧ tok `sublist_of` cand).
  { intros so (item & k & Hitem & Hs & ->)%elem_of_find_matches.
    subst cand. simpl. split; [done|].
    unfold score in Hs.
    destruct (re_search _ _) as [r|] eqn:E; [|done].
    by eapply re_search_sublist. }
  split; [|split; [exact Hfz|]].
  - intros (item & k & Hitem & Hs & ->)%elem_of_find_matches.
    subst cand. simpl. split; [done|].
    unfold score, str_find_in in Hs.
    destruct (str_find _ _) as [p|] eqn:E; [|done].
    rewrite <- to_list_length in E.
    by apply str_find_take_prefix in E as [_ ?].
  - intros so Hn Hin. by apply Hn, (Hfz so).
Qed.

(** C4.  The output of [find_matches] is sorted ascending by
    (matched-span length, match start, candidate text), and it is the
    same list however the candidate collection is enumerated: two calls
    on the same token, candidates and flags return identical
    sequences. *)
Theorem find_matches_deterministic_sorted (last_word : string → string)
    (input : string) (col : list string) (start_only fuzzy : bool) :
  StronglySorted (ranked_le (Str.lower (last_word input)) start_only fuzzy)
    (find_matches last_word input col start_only fuzzy)
  ∧ (∀ col', col ≡ₚ col' →
       find_matches last_word input col' start_only fuzzy
       = find_matches last_word input col start_only fuzzy).
Proof.
  split; [apply find_matches_sorted|].
  intros col' Hp. symmetry. by apply find_matches_perm.
Qed.

Lemma find_matches_sound_witness :
  let c := MkCompletion "SELECT" (-3) in
  (text c ∈ ["SELECT"; "FROM"]
   ∧ Str.to_list "sel" `prefix_of` Str.to_list "select")
  ∧ (text c ∈ ["SELECT"; "FROM"]
     ∧ Str.to_list "sel" `sublist_of` Str.to_list "select")
  ∧ MkCompletion "X" (-3) ∉ find_matches last_word_spec "sel" ["SELECT"; "X"] false true.
Proof.
  intros c.
  assert (Hpre : c ∈ find_matches last_word_spec "sel" ["SELECT"; "FROM"] true false).
  { replace (find_matches last_word_spec "sel" ["SELECT"; "FROM"] true false)
      with [c] by (vm_compute; reflexivity).
    apply list_elem_of_here. }
  assert (Hfz : c ∈ find_matches last_word_spec "sel" ["SELECT"; "FROM"] false true).
  { replace (find_matches last_word_spec "sel" ["SELECT"; "FROM"] false true)
      with [c] by (vm_compute; reflexivity).
    apply list_elem_of_here. }
  split; [|split].
  - exact (proj1 (find_matches_sound last_word_spec "sel" ["SELECT"; "FROM"] c) Hpre).
  - exact (proj1 (proj2 (find_matches_sound last_word_spec "sel" ["SELECT"; "FROM"] c))
             false Hfz).
  - apply (proj2 (proj2 (find_matches_sound last_word_spec "sel" ["SELECT"; "X"]
                           (MkCompletion "X" (-3))))).
    intros Hsub%sublist_length. simpl in Hsub. lia.
Defined.

Lemma find_matches_deterministic_sorted_witness :
  find_matches last_word_spec "su" ["SUM"; "SUBSTR"] false true
  = find_matches last_word_spec "su" ["SUBSTR"; "SUM"] false true.
Proof.
  apply (proj2 (find_matches_deterministic_sorted last_word_spec "su"
                  ["SUBSTR"; "SUM"] false true)).
  apply perm_swap.
Defined.

(** ** The dispatcher, branch by branch *)

Section DispatcherFacts.

Variable last_word : string → string.
Variable favoritequeries_list : list string.

Lemma keyword_branch self w tbls sch al du :
  suggestion_completions last_word favoritequeries_list self w
    (Suggestion "keyword" tbls sch al du)
  = Ok (find_matches last_word w (keywords self) true false).
Proof. reflexivity. Qed.

Lemma column_branch self w tbls sch al du :
  suggestion_completions last_word favoritequeries_list self w
    (Suggestion "column" tbls sch al du)
  = match populate_scoped_cols self tbls with
    | Raise e => Raise e
    | Ok scoped_cols =>
        Ok (find_matches last_word w
              (if du then drop_unique_cols scoped_cols else scoped_cols)
              false true)
    end.
Proof. reflexivity. Qed.

Lemma function_branch self w tbls sch al du :
  suggestion_completions last_word favoritequeries_list self w
    (Suggestion "function" tbls sch al du)
  = match populate_schema_objects self sch "functions" with
    | Raise e => Raise e
    | Ok funcs =>
        Ok (find_matches last_word w funcs false true
            ++ (if no_schema sch
                then find_matches last_word w functions true false
                else []))
    end.
Proof. reflexivity. Qed.

Lemma get_completions_single self w sg :
  get_completions last_word favoritequeries_list self w [sg] (Some true)
  = suggestion_completions last_word favoritequeries_list self w sg.
Proof.
  unfold get_completions. simpl.
  by destruct (suggestion_completions _ _ _ _ _).
Qed.

End DispatcherFacts.

(** C5.  Every completion [find_matches] emits carries the start
    position [-len(token)], the token being the lowercased last word of
    the input; and with the word before the cursor ["sel"] and a keyword
    vocabulary that holds [SELECT], the keyword suggestion returns
    [SELECT] with start position [-3]. *)
Theorem find_matches_offset (last_word : string → string) :
  (∀ input col start_only fuzzy c,
     c ∈ find_matches last_word input col start_only fuzzy →
     start_position c = (- Z.of_nat (Str.len (Str.lower (last_word input))))%Z)
  ∧ (∀ favoritequeries_list self,
       last_word "sel" = "sel" →
       "SELECT" ∈ keywords self →
       ∃ cs, get_completions last_word favoritequeries_list self "sel"
               [Suggestion "keyword" [] None [] false] (Some true) = Ok cs
             ∧ MkCompletion "SELECT" (-3) ∈ cs).
Proof.
  split.
  - intros input col so fz c (item & k & _ & _ & ->)%elem_of_find_matches.
    reflexivity.
  - intros fav self Hlw Hkw.
    rewrite get_completions_single, keyword_branch.
    eexists. split; [reflexivity|].
    apply elem_of_find_matches.
    exists "SELECT", (3, 0, "SELECT"). rewrite Hlw.
    split; [done|]. split; reflexivity.
Qed.

Lemma find_matches_offset_witness :
  start_position (MkCompletion "SELECT" (-3)) = (-3)%Z
  ∧ ∃ cs, get_completions last_word_spec []
            (init ["FROM"; "SELECT"] [] true []) "sel"
            [Suggestion "keyword" [] None [] false] (Some true) = Ok cs
          ∧ MkCompletion "SELECT" (-3) ∈ cs.
Proof.
  split.
  - apply (proj1 (find_matches_offset last_word_spec)
             "sel" ["FROM"; "SELECT"] true false).
    replace (find_matches last_word_spec "sel" ["FROM"; "SELECT"] true false)
      with [MkCompletion "SELECT" (-3)] by (vm_compute; reflexivity).
    apply list_elem_of_here.
  - apply (proj2 (find_matches_offset last_word_spec)).
    + reflexivity.
    + simpl. apply list_elem_of_further, list_elem_of_here.
Defined.

(** ** The scope resolver *)


Lemma stored_cols_getitem2 m schema name :
  cols_only m →
  getitem2 m schema name = PyList <$> stored_cols m schema name.
Proof.
  intros Hc. unfold stored_cols. specialize (Hc schema name).
  by destruct (getitem2 m schema name) as [[cols|]|].
Qed.

Lemma populate_scoped_cols_loop_spec self tbls columns :
  cols_only (md_tables (dbmetadata self)) →
  cols_only (md_views (dbmetadata self)) →
  populate_scoped_cols_loop self tbls columns
  = Ok (columns ++ concat (resolve_ref_spec self <$> tbls)).
Proof.
  intros Ht Hv. revert columns.
  induction tbls as [|tbl tbls IH]; intros columns; simpl.
  - by rewrite app_nil_r.
  - unfold resolve_ref_spec, resolved_schema.
    rewrite !(stored_cols_getitem2 _ _ _ Ht), !(stored_cols_getitem2 _ _ _ Hv).
    destruct (stored_cols (md_tables _) _ (ref_name tbl)) as [cols|]; simpl.
    { by rewrite IH, app_assoc. }
    destruct (stored_cols (md_tables _) _ (escape_name _)) as [cols|]; simpl.
    { by rewrite IH, app_assoc. }
    destruct (stored_cols (md_views _) _ _) as [cols|]; simpl.
    { by rewrite IH, app_assoc. }
    by rewrite IH.
Qed.

(** C1.  [populate_scoped_cols] returns, without raising, the
    concatenation in reference order (duplicates kept) of what each
    reference resolves to: its schema is the explicit schema or else the
    current database, uppercased; the relation is looked up under
    [tables[schema]], then under its escaped name, then under
    [views[schema]], and a relation in neither contributes no columns.
    In particular a reference to relation [R] of schema [S] whose stored
    column list is [cols] resolves to exactly [cols]. *)
Theorem populate_scoped_cols_spec (self : SQLCompleter) :
  (cols_only (md_tables (dbmetadata self)) →
   cols_only (md_views (dbmetadata self)) →
   ∀ tbls, populate_scoped_cols self tbls
           = Ok (concat (resolve_ref_spec self <$> tbls)))
  ∧ (∀ tbl cols,
       getitem2 (md_tables (dbmetadata self)) (resolved_schema self tbl)
         (ref_name tbl) = Some (PyList cols) →
       populate_scoped_cols self [tbl] = Ok cols)
  ∧ (∀ S R cols,
       S ≠ "" →
       getitem2 (md_tables (dbmetadata self)) (Str.upper S) R
         = Some (PyList cols) →
       populate_scoped_cols self [TblRef (Some S) R None] = Ok cols)
  ∧ (∀ S R cols,
       S ≠ "" →
       getitem2 (md_tables (dbmetadata self)) (Str.upper S) R = None →
       getitem2 (md_views (dbmetadata self)) (Str.upper S) R
         = Some (PyList cols) →
       populate_scoped_cols self [TblRef (Some S) R None] = Ok cols).
Proof.
  assert (H1 : ∀ tbl cols,
             getitem2 (md_tables (dbmetadata self)) (resolved_schema self tbl)
               (ref_name tbl) = Some (PyList cols) →
             populate_scoped_cols self [tbl] = Ok cols).
  { intros tbl cols H. unfold populate_scoped_cols. simpl.
    unfold resolved_schema in H. by rewrite H. }
  split; [|split; [exact H1|split]].
  - intros Ht Hv tbls. unfold populate_scoped_cols.
    by rewrite populate_scoped_cols_loop_spec.
  - intros S R cols HS H. apply H1. unfold resolved_schema. simpl.
    by rewrite decide_False.
  - intros S R cols HS Ht Hv. unfold populate_scoped_cols. simpl.
    rewrite (decide_False _ _ HS). unfold escape_name. by rewrite Ht, Hv.
Qed.

(** ** Sequences of extension operations *)


Lemma md_get_set k k' m md :
  md_get k' (md_set k m md) = if decide (k = k') then m else md_get k' md.
Proof. by destruct k, k', md. Qed.

Lemma getitem2_insert (m : schema_map) schema objs name v schema' name' :
  getitem2 (<[schema := <[name := v]> objs]> m) schema' name'
  = if decide (schema = schema') then
      if decide (name = name') then Some v else objs !! name'
    else getitem2 m schema' name'.
Proof.
  unfold getitem2. destruct (decide (schema = schema')) as [->|Hs].
  - rewrite lookup_insert_eq. destruct (decide (name = name')) as [->|Hn].
    + by rewrite lookup_insert_eq.
    + by rewrite lookup_insert_ne.
  - by rewrite lookup_insert_ne.
Qed.

Lemma getitem2_insert_empty (m : schema_map) schema schema' name :
  getitem2 (<[schema := ∅]> m) schema' name
  = if decide (schema = schema') then None else getitem2 m schema' name.
Proof.
  unfold getitem2. destruct (decide (schema = schema')) as [->|Hs].
  - by rewrite lookup_insert_eq.
  - by rewrite lookup_insert_ne.
Qed.

Lemma dom_insert_present (m : schema_map) schema objs objs' :
  m !! schema = Some objs → dom (<[schema := objs']> m) = dom m.
Proof.
  intros H. rewrite dom_insert_L. apply set_eq. intros x.
  rewrite elem_of_union, elem_of_singleton. split; [|by right].
  intros [->|Hx]; [|done]. apply elem_of_dom. by exists objs.
Qed.

Section LoopInvariants.

(** a property of the three maps that a cell update inside a
    registered schema keeps *)
Variable P : kind → schema_map → Prop.
Hypothesis P_update : ∀ k (m : schema_map) schema objs name v,
  (v = PyNone → k = Functions) →
  m !! schema = Some objs →
  P k m → P k (<[schema := <[name := v]> objs]> m).

Local Abbreviation inv := (catalog_inv P).

Lemma inv_update k schema objs name v self :
  (v = PyNone → k = Functions) →
  md_get k (dbmetadata self) !! schema = Some objs →
  inv self →
  inv (with_dbmetadata
         (md_set k (<[schema := <[name := v]> objs]>
                      (md_get k (dbmetadata self))) (dbmetadata self)) self).
Proof.
  intros Hv Hl Hi k'. simpl. rewrite md_get_set.
  destruct (decide (k = k')) as [<-|]; [|apply Hi].
  by apply P_update.
Qed.

Lemma extend_relations_loop_inv k schema data self :
  inv self → inv (extend_relations_loop k schema data self).1.
Proof.
  revert self. induction data as [|relname data IH]; intros self Hi; [done|].
  simpl. destruct relname as [|name rest]; [done|].
  apply IH. unfold setitem2.
  destruct (md_get k (dbmetadata self) !! schema) as [objs|] eqn:E; [|done].
  intros k'. simpl. by apply (inv_update k schema objs name (PyList ["*"])).
Qed.

Lemma extend_columns_loop_inv k schema data self :
  inv self → inv (extend_columns_loop k schema data self).1.
Proof.
  revert self. induction data as [|r data IH]; intros self Hi; [done|].
  simpl. destruct r as [|relname [|column [|? ?]]]; try done.
  unfold getitem2.
  destruct (md_get k (dbmetadata self) !! schema) as [objs|] eqn:E; [|done].
  simpl. destruct (objs !! relname) as [[cols|]|] eqn:E'; try done.
  apply IH. intros k'. simpl.
  by apply (inv_update k schema objs relname (PyList (cols ++ [column]))).
Qed.

Lemma extend_functions_loop_inv schema data self :
  inv self → inv (extend_functions_loop schema data self).1.
Proof.
  revert self. induction data as [|func data IH]; intros self Hi; [done|].
  simpl.
  destruct (md_functions (dbmetadata self) !! schema) as [objs|] eqn:E;
    [|done].
  destruct func as [|name rest]; [done|].
  apply IH. intros k'. simpl.
  by apply (inv_update Functions schema objs name PyNone).
Qed.

(** registering a schema keeps the property *)
Hypothesis P_schema : ∀ k (m : schema_map) schema,
  P k m → P k (<[Str.upper schema := ∅]> m).

Lemma extend_schemata_inv schemas self :
  inv self → inv (extend_schemata schemas self).
Proof.
  unfold extend_schemata. revert self.
  induction schemas as [|s schemas IH]; intros self Hi; [done|].
  simpl. apply IH. intros k. specialize (Hi k).
  destruct k; simpl; by apply P_schema.
Qed.

Lemma run_op_inv o self : inv self → inv (run_op o self).
Proof.
  intros Hi. destruct o as [schemas|data kk schema|data kk schema|data schema|n];
    simpl.
  - by apply extend_schemata_inv.
  - unfold extend_relations. destruct (kind_of_key kk); [|done].
    by apply extend_relations_loop_inv.
  - unfold extend_columns. destruct (kind_of_key kk); [|done].
    by apply extend_columns_loop_inv.
  - by apply extend_functions_loop_inv.
  - done.
Qed.

Lemma run_ops_inv ops self : inv self → inv (run_ops ops self).
Proof.
  unfold run_ops. revert self.
  induction ops as [|o ops IH]; intros self Hi; [done|].
  simpl. by apply IH, run_op_inv.
Qed.

End LoopInvariants.

(** ** Invariants of the catalog *)

Lemma reset_keys_upper self : catalog_keys_upper (reset_completions self).
Proof. intros k schema. destruct k; simpl; by rewrite dom_empty_L. Qed.

Lemma run_ops_keys_upper ops self :
  catalog_keys_upper self → catalog_keys_upper (run_ops ops self).
Proof.
  apply (run_ops_inv (λ _, keys_upper)).
  - intros k m schema objs name v _ Hl Hm.
    unfold keys_upper. by rewrite (dom_insert_present _ _ _ _ Hl).
  - intros k m schema Hm s. rewrite dom_insert_L, elem_of_union, elem_of_singleton.
    intros [->|Hs]; [apply upper_is_upper | by apply Hm].
Qed.

Lemma reset_cols_only self : catalog_cols_only (reset_completions self).
Proof. split; intros schema name; unfold getitem2; simpl; by rewrite lookup_empty. Qed.

Lemma run_ops_cols_only ops self :
  catalog_cols_only self → catalog_cols_only (run_ops ops self).
Proof.
  intros [Ht Hv].
  assert (Hi : catalog_inv (λ k m, k ≠ Functions → cols_only m)
                 (run_ops ops self)).
  { apply run_ops_inv.
    - intros k m schema objs name v Hv' Hl Hm Hk schema' name'.
      rewrite getitem2_insert. specialize (Hm Hk schema' name').
      unfold getitem2 in Hm.
      destruct (decide (schema = schema')) as [<-|]; [|done].
      rewrite Hl in Hm.
      destruct (decide (name = name')) as [<-|]; [|done].
      intros [= ->]. by apply Hk, Hv'.
    - intros k m schema Hm Hk schema' name'. rewrite getitem2_insert_empty.
      case_decide; [done|]. by apply Hm.
    - intros k. by destruct k. }
  split; [by apply (Hi Tables) | by apply (Hi Views)].
Qed.

Lemma hr_catalog_cols_only : catalog_cols_only hr_catalog.
Proof. apply run_ops_cols_only, reset_cols_only. Qed.

Lemma populate_scoped_cols_spec_witness :
  let tbls := [TblRef None "EMPLOYEES" None; TblRef (Some "hr") "EMP_V" None;
               TblRef (Some "hr") "NOWHERE" None] in
  populate_scoped_cols hr_catalog tbls
    = Ok (concat (resolve_ref_spec hr_catalog <$> tbls))
  ∧ populate_scoped_cols hr_catalog [TblRef None "EMPLOYEES" None]
    = Ok ["*"; "EMPLOYEE_ID"; "FIRST_NAME"; "LAST_NAME"; "DEPARTMENT_ID"]
  ∧ populate_scoped_cols hr_catalog [TblRef (Some "hr") "DEPARTMENTS" None]
    = Ok ["*"; "DEPARTMENT_ID"; "NAME"]
  ∧ populate_scoped_cols hr_catalog [TblRef (Some "hr") "EMP_V" None]
    = Ok ["*"; "FIRST_NAME"].
Proof.
  intros tbls.
  destruct (populate_scoped_cols_spec hr_catalog) as (H1 & H2 & H3 & H4).
  split; [|split; [|split]].
  - apply H1; apply hr_catalog_cols_only.
  - apply H2. vm_compute. reflexivity.
  - apply H3; [discriminate | vm_compute; reflexivity].
  - apply H4; [discriminate | vm_compute; reflexivity | vm_compute; reflexivity].
Defined.

(** ** The catalog: reset, schemata and the storage invariant *)

Lemma consume_of_rows {A} (l : list A) : consume (of_rows l) = Some l.
Proof. induction l as [|a l IH]; simpl; [done|]. by rewrite IH. Qed.

Lemma escaped_names_id (r : row) : escaped_names r = r.
Proof. unfold escaped_names, escape_name. apply list_fmap_id. Qed.

Lemma escaped_rows_of_rows (l : list row) : escaped_rows (of_rows l) = l.
Proof.
  unfold escaped_rows. rewrite consume_of_rows.
  induction l as [|r l IH]; [done|].
  rewrite fmap_cons. by rewrite escaped_names_id, IH.
Qed.

Lemma escaped_rows_raises (g : lazy_seq row) : consume g = None → escaped_rows g = [].
Proof. unfold escaped_rows. by intros ->. Qed.

(** what [_extend_schemata] does to the maps: the uppercased name is a
    key of each of them, bound to an empty dictionary *)
Lemma _extend_schemata_maps schema self k :
  md_get k (dbmetadata (_extend_schemata schema self)) !! Str.upper schema
  = Some ∅.
Proof. destruct k; simpl; apply lookup_insert_eq. Qed.

Lemma _extend_schemata_completions schema self :
  all_completions (_extend_schemata schema self)
  = list_to_set (Str.chars (Str.upper schema)) ∪ all_completions self.
Proof. reflexivity. Qed.

(** C6, as the code has it.  [reset_completions] empties the databases,
    the users, the show-items and the current database name, sets the
    three object maps to empty maps in which [_extend_schemata] can
    register a schema, and sets [all_completions] to exactly the
    keywords together with the built-in functions; a second call
    changes nothing. *)
Theorem reset_completions_spec (self : SQLCompleter) :
  let r := reset_completions self in
  databases r = [] ∧ users r = [] ∧ show_items r = [] ∧ dbname r = ""
  ∧ dbmetadata r = DbMeta ∅ ∅ ∅
  ∧ keywords r = keywords self
  ∧ (∀ x, x ∈ all_completions r ↔ x ∈ keywords self ∨ x ∈ functions)
  ∧ (∀ schema k,
       md_get k (dbmetadata (_extend_schemata schema r)) !! Str.upper schema
       = Some ∅)
  ∧ reset_completions r = r.
Proof.
  intros r. split_and!; try reflexivity.
  - intros x. unfold r, reset_completions. simpl.
    by rewrite elem_of_list_to_set, elem_of_app.
  - intros schema k. apply _extend_schemata_maps.
Qed.

(** C6, as stated, fails: change-items registered before the reset are
    still there after it. *)
Lemma reset_completions_keeps_change_items :
  change_items
    (reset_completions
       (extend_change_items [["BUFFER_POOL"]] (init ["SELECT"] [] true [])))
  ≠ [].
Proof. discriminate. Qed.

(** C8, as the code has it.  After any sequence of extension operations
    on a reset catalog every schema key of the three object maps is
    canonically uppercased; an object name is stored the way it is
    supplied. *)
Theorem schema_keys_uppercased (ops : list op) (self : SQLCompleter) :
  catalog_keys_upper (run_ops ops (reset_completions self))
  ∧ (∀ st kind_key k schema name,
       kind_of_key kind_key = Some k →
       Str.upper schema ∈ dom (md_get k (dbmetadata st)) →
       getitem2
         (md_get k (dbmetadata
            (run_op (OpRelations (of_rows [[name]]) kind_key schema) st)))
         (Str.upper schema) name
       = Some (PyList ["*"])).
Proof.
  split; [apply run_ops_keys_upper, reset_keys_upper|].
  intros st kk k schema name Hk Hd.
  unfold run_op, extend_relations. rewrite Hk, escaped_rows_of_rows.
  apply elem_of_dom in Hd as [objs Ho].
  cbn [extend_relations_loop]. unfold setitem2. rewrite Ho. simpl.
  rewrite md_get_set, decide_True by done.
  rewrite getitem2_insert. by rewrite !decide_True.
Qed.

Lemma schema_keys_uppercased_witness :
  getitem2
    (md_tables (dbmetadata
       (run_op (OpRelations (of_rows [["emp"]]) "tables" "hr")
          (run_ops [OpSchemata ["hr"]] (init [] [] true [])))))
    "HR" "emp"
  = Some (PyList ["*"]).
Proof.
  apply (proj2 (schema_keys_uppercased [] (init [] [] true []))
           (run_ops [OpSchemata ["hr"]] (init [] [] true []))
           "tables" Tables "hr" "emp").
  - reflexivity.
  - apply elem_of_dom. eexists. apply (_extend_schemata_maps "hr" _ Tables).
Defined.

(** C8, as stated, fails: a relation registered under a lowercase name
    is stored under that name. *)
Lemma object_names_not_uppercased :
  let st := run_ops [OpSchemata ["hr"];
                     OpRelations (of_rows [["emp"]]) "tables" "hr"]
              (init [] [] true []) in
  ¬ (catalog_keys_upper st ∧ catalog_names_upper st).
Proof.
  intros st [_ Hn].
  assert (He : getitem2 (md_get Tables (dbmetadata st)) "HR" "emp"
               = Some (PyList ["*"])) by (vm_compute; reflexivity).
  specialize (Hn Tables "HR" "emp"). rewrite He in Hn.
  specialize (Hn (ex_intro _ _ eq_refl)). discriminate Hn.
Qed.

(** C9.  [extend_schemata(['hr'])] on a fresh completer: the three maps
    gain the key [HR], and [all_completions] gains the characters [H]
    and [R], not the schema name. *)
Lemma extend_schemata_adds_characters :
  let self := extend_schemata ["hr"] (init ["FROM"; "SELECT"] [] true []) in
  (∀ k, md_get k (dbmetadata self) !! "HR" = Some ∅)
  ∧ ("H" ∈ all_completions self) ∧ ("R" ∈ all_completions self)
  ∧ ("HR" ∉ all_completions self) ∧ ("hr" ∉ all_completions self).
Proof.
  intros self. split; [intros k; apply (_extend_schemata_maps "hr")|].
  split_and!; apply (bool_decide_unpack _); vm_compute; exact I.
Qed.

(** ** Failing enumerations and unknown schemas *)

(** C7.  When the generator handed to [extend_relations],
    [extend_columns] or [extend_functions] raises while it is consumed,
    the call returns normally and leaves the completer exactly as it
    was; looking up the objects or the columns of an unknown schema
    gives the empty list without raising; and [extend_columns] for a
    relation that was never registered raises [KeyError]. *)
Theorem enumeration_failure_contained (self : SQLCompleter) :
  (∀ g kind_key k schema,
     consume g = None → kind_of_key kind_key = Some k →
     extend_relations g kind_key schema self = (self, None)
     ∧ extend_columns g kind_key schema self = (self, None))
  ∧ (∀ g schema,
       consume g = None → extend_functions g schema self = (self, None))
  ∧ (∀ schema obj_type k,
       kind_of_key obj_type = Some k →
       md_get k (dbmetadata self) !! Str.upper (py_or schema (dbname self))
         = None →
       populate_schema_objects self schema obj_type = Ok [])
  ∧ (∀ tbl,
       md_tables (dbmetadata self) !! resolved_schema self tbl = None →
       md_views (dbmetadata self) !! resolved_schema self tbl = None →
       populate_scoped_cols self [tbl] = Ok [])
  ∧ (∀ kind_key k schema relname column rest,
       kind_of_key kind_key = Some k →
       getitem2 (md_get k (dbmetadata self)) (Str.upper schema) relname
         = None →
       extend_columns (of_rows ([relname; column] :: rest)) kind_key schema self
       = (self, Some KeyError)).
Proof.
  split_and!.
  - intros g kk k schema Hg Hk. unfold extend_relations, extend_columns.
    by rewrite Hk, (escaped_rows_raises _ Hg).
  - intros g schema Hg. unfold extend_functions.
    by rewrite (escaped_rows_raises _ Hg).
  - intros schema ot k Hk Hl. unfold populate_schema_objects.
    by rewrite Hk, Hl.
  - intros tbl Ht Hv. unfold populate_scoped_cols. simpl.
    unfold resolved_schema in Ht, Hv. unfold getitem2. by rewrite Ht, Hv.
  - intros kk k schema relname column rest Hk Hl. unfold extend_columns.
    rewrite Hk, escaped_rows_of_rows. simpl. by rewrite Hl.
Qed.

Lemma enumeration_failure_contained_witness :
  let g := Yield ["JOBS"] (Yield ["LOCATIONS"] Raises) in
  (extend_relations g "tables" "hr" hr_catalog = (hr_catalog, None)
   ∧ extend_columns g "tables" "hr" hr_catalog = (hr_catalog, None))
  ∧ extend_functions g "HR" hr_catalog = (hr_catalog, None)
  ∧ populate_schema_objects hr_catalog (Some "sales") "tables" = Ok []
  ∧ populate_scoped_cols hr_catalog [TblRef (Some "sales") "ORDERS" None]
    = Ok []
  ∧ extend_columns (of_rows [["JOBS"; "JOB_ID"]]) "tables" "hr" hr_catalog
    = (hr_catalog, Some KeyError).
Proof.
  intros g.
  destruct (enumeration_failure_contained hr_catalog)
    as (H1 & H2 & H3 & H4 & H5).
  split_and!.
  - apply (H1 g "tables" Tables "hr"); reflexivity.
  - apply (H1 g "tables" Tables "hr"); reflexivity.
  - apply H2. reflexivity.
  - apply (H3 (Some "sales") "tables" Tables); [reflexivity|].
    vm_compute. reflexivity.
  - apply H4; vm_compute; reflexivity.
  - apply (H5 "tables" Tables); [reflexivity|]. vm_compute. reflexivity.
Defined.

(** ** Counting columns across relations *)

Lemma count_of_app x l1 l2 : count_of x (l1 ++ l2) = count_of x l1 + count_of x l2.
Proof. unfold count_of. by rewrite filter_app, length_app. Qed.

Lemma count_of_cons x y l :
  count_of x (y :: l) = (if decide (y = x) then 1 else 0) + count_of x l.
Proof.
  unfold count_of. rewrite filter_cons.
  by destruct (decide (y = x)).
Qed.

Lemma count_of_pos x l : 0 < count_of x l ↔ x ∈ l.
Proof.
  induction l as [|y l IH];
    [rewrite elem_of_nil; unfold count_of; simpl; lia|].
  rewrite count_of_cons, elem_of_cons.
  destruct (decide (y = x)) as [->|Hne]; [split; [by left|lia]|].
  rewrite <- IH. split; [intros; right; lia|].
  intros [->|?]; [done|lia].
Qed.

Lemma count_of_NoDup x l : NoDup l → count_of x l ≤ 1.
Proof.
  induction 1 as [|y l Hy Hl IH]; [unfold count_of; simpl; lia|].
  rewrite count_of_cons. destruct (decide (y = x)) as [->|]; [|lia].
  assert (¬ 0 < count_of x l) by by rewrite count_of_pos. lia.
Qed.

Lemma counter_get_incr x y c :
  counter_get x (counter_incr y c)
  = counter_get x c + (if decide (y = x) then 1 else 0).
Proof.
  induction c as [|[z n] c IH]; simpl.
  - destruct (decide (x = y)) as [->|]; [by rewrite decide_True|].
    by rewrite decide_False.
  - destruct (decide (y = z)) as [->|Hyz]; simpl.
    + destruct (decide (x = z)) as [->|Hxz].
      * rewrite decide_True by done. lia.
      * rewrite decide_False by done. lia.
    + destruct (decide (x = z)) as [->|Hxz]; [|done].
      rewrite decide_False by done. lia.
Qed.

Lemma counter_incr_keys y c :
  (counter_incr y c).*1 = if decide (y ∈ c.*1) then c.*1 else c.*1 ++ [y].
Proof.
  induction c as [|[z n] c IH].
  - destruct (decide (y ∈ ([] : list (string * nat)).*1)) as [Hin|_]; [|done].
    by apply elem_of_nil in Hin.
  - cbn [counter_incr]. destruct (decide (y = z)) as [->|Hyz].
    + rewrite decide_True; [done|]. rewrite fmap_cons. apply list_elem_of_here.
    + rewrite !fmap_cons, IH. cbn [fst].
      destruct (decide (y ∈ c.*1)) as [Hin|Hin].
      * rewrite decide_True; [done|]. by apply list_elem_of_further.
      * rewrite decide_False; [done|]. rewrite elem_of_cons. tauto.
Qed.

Lemma counter_incr_NoDup y c : NoDup c.*1 → NoDup (counter_incr y c).*1.
Proof.
  intros Hn. rewrite counter_incr_keys. case_decide; [done|].
  apply NoDup_app. split_and!; [done| |apply NoDup_singleton].
  intros z Hz Hz'. apply list_elem_of_singleton in Hz' as ->. done.
Qed.

Lemma Counter_fold l acc :
  NoDup acc.*1 →
  NoDup (foldl (λ c x, counter_incr x c) acc l).*1
  ∧ ∀ x, counter_get x (foldl (λ c x, counter_incr x c) acc l)
         = counter_get x acc + count_of x l.
Proof.
  revert acc. induction l as [|y l IH]; intros acc Hn; simpl.
  - split; [done|]. intros x. unfold count_of. simpl. lia.
  - destruct (IH (counter_incr y acc) (counter_incr_NoDup _ _ Hn)) as [H1 H2].
    split; [done|]. intros x.
    rewrite H2, counter_get_incr, count_of_cons. lia.
Qed.

Lemma Counter_NoDup l : NoDup (Counter l).*1.
Proof. apply Counter_fold. constructor. Qed.

Lemma Counter_get x l : counter_get x (Counter l) = count_of x l.
Proof.
  unfold Counter. destruct (Counter_fold l [] (NoDup_nil_2)) as [_ H].
  by rewrite H.
Qed.

Lemma counter_get_elem x n c :
  NoDup c.*1 → (x, n) ∈ c → counter_get x c = n.
Proof.
  induction c as [|[z m] c IH]; simpl; [by rewrite elem_of_nil|].
  rewrite NoDup_cons, elem_of_cons. intros [Hz Hn] [[= -> ->]|Hin].
  - by rewrite decide_True.
  - destruct (decide (x = z)) as [->|]; [|by apply IH].
    exfalso. apply Hz. apply list_elem_of_fmap. by exists (z, n).
Qed.

Lemma counter_elem_get x c :
  0 < counter_get x c → (x, counter_get x c) ∈ c.
Proof.
  induction c as [|[z m] c IH]; simpl; [lia|].
  destruct (decide (x = z)) as [->|].
  - intros _. apply list_elem_of_here.
  - intros H. by apply list_elem_of_further, IH.
Qed.

Lemma elem_of_drop_unique_cols c cols :
  c ∈ drop_unique_cols cols ↔ 2 ≤ count_of c cols ∧ c ≠ "*".
Proof.
  unfold drop_unique_cols. rewrite list_elem_of_omap. split.
  - intros ([col n] & Hin & Hf).
    apply (counter_get_elem _ _ _ (Counter_NoDup cols)) in Hin.
    rewrite Counter_get in Hin. subst n.
    destruct (decide (1 < count_of col cols)); [|done].
    destruct (decide (col ≠ "*")); [|done].
    simplify_eq. split; [lia|done].
  - intros [Hc Hs]. exists (c, count_of c cols). split.
    + rewrite <- Counter_get. apply counter_elem_get. rewrite Counter_get. lia.
    + rewrite decide_True by lia. by rewrite decide_True.
Qed.

Lemma drop_unique_cols_NoDup cols : NoDup (drop_unique_cols cols).
Proof.
  unfold drop_unique_cols.
  assert (Hs : ∀ c : list (string * nat),
            omap (λ '(col, count),
                    if decide (1 < count) then
                      if decide (col ≠ "*") then Some col else None
                    else None) c `sublist_of` c.*1).
  { induction c as [|[z m] c IH]; simpl; [constructor|].
    destruct (decide (1 < m)); [|by apply sublist_cons].
    destruct (decide (z ≠ "*")); [by apply sublist_skip|by apply sublist_cons]. }
  eapply sublist_NoDup; [apply Counter_NoDup|apply Hs].
Qed.

Lemma NoDup_only_elem (x : string) l :
  NoDup l → (∀ y, y ∈ l ↔ y = x) → l = [x].
Proof.
  intros Hn He. destruct l as [|a l].
  - exfalso. assert (x ∈ []) as Hx by by apply He. by apply elem_of_nil in Hx.
  - assert (a = x) as -> by (apply He, list_elem_of_here).
    destruct l as [|b l]; [done|]. exfalso.
    assert (b = x) as -> by (apply He, list_elem_of_further, list_elem_of_here).
    apply NoDup_cons in Hn as [Hn _]. apply Hn, list_elem_of_here.
Qed.

(** C2.  With [drop_unique] set, the column branch matches against the
    scoped columns filtered to the names that occur at least twice over
    all resolved references, the wildcard ['*'] left out, each such name
    once; for two relations that share exactly the column [x], the
    filtered list is [[x]]. *)
Theorem drop_unique_spec :
  (∀ cols c, c ∈ drop_unique_cols cols ↔ 2 ≤ count_of c cols ∧ c ≠ "*")
  ∧ (∀ cols, NoDup (drop_unique_cols cols))
  ∧ (∀ last_word favoritequeries_list self w tbls sch al cols,
       populate_scoped_cols self tbls = Ok cols →
       suggestion_completions last_word favoritequeries_list self w
         (Suggestion "column" tbls sch al true)
       = Ok (find_matches last_word w (drop_unique_cols cols) false true))
  ∧ (∀ l1 l2 x,
       NoDup l1 → NoDup l2 → x ∈ l1 → x ∈ l2 → x ≠ "*" →
       (∀ y, y ∈ l1 → y ∈ l2 → y = x ∨ y = "*") →
       drop_unique_cols (l1 ++ l2) = [x]).
Proof.
  split_and!.
  - intros cols c. apply elem_of_drop_unique_cols.
  - apply drop_unique_cols_NoDup.
  - intros lw fav self w tbls sch al cols H.
    rewrite column_branch. by rewrite H.
  - intros l1 l2 x Hn1 Hn2 Hx1 Hx2 Hs Hd.
    apply NoDup_only_elem; [apply drop_unique_cols_NoDup|].
    intros y. rewrite elem_of_drop_unique_cols, count_of_app.
    pose proof (count_of_NoDup y _ Hn1) as Hc1.
    pose proof (count_of_NoDup y _ Hn2) as Hc2.
    pose proof (count_of_pos y l1) as Hp1.
    pose proof (count_of_pos y l2) as Hp2.
    split.
    + intros [Hc Hy].
      destruct (Hd y) as [?|?]; [apply Hp1; lia|apply Hp2; lia|done|done].
    + intros ->. apply Hp1 in Hx1. apply Hp2 in Hx2. split; [lia|done].
Qed.

Lemma drop_unique_spec_witness :
  let l1 := ["*"; "EMPLOYEE_ID"; "FIRST_NAME"; "LAST_NAME"; "DEPARTMENT_ID"] in
  let l2 := ["*"; "DEPARTMENT_ID"; "NAME"] in
  suggestion_completions last_word_spec [] hr_catalog "dep"
    (Suggestion "column"
       [TblRef None "EMPLOYEES" None; TblRef None "DEPARTMENTS" None]
       None [] true)
  = Ok (find_matches last_word_spec "dep" (drop_unique_cols (l1 ++ l2))
          false true)
  ∧ drop_unique_cols (l1 ++ l2) = ["DEPARTMENT_ID"].
Proof.
  intros l1 l2.
  destruct drop_unique_spec as (_ & _ & H3 & H4).
  split.
  - apply H3. vm_compute. reflexivity.
  - apply H4.
    + apply (bool_decide_unpack _). vm_compute. exact I.
    + apply (bool_decide_unpack _). vm_compute. exact I.
    + apply (bool_decide_unpack _). vm_compute. exact I.
    + apply (bool_decide_unpack _). vm_compute. exact I.
    + discriminate.
    + intros y Hy1 Hy2. unfold l2 in Hy2. rewrite !elem_of_cons in Hy2.
      destruct Hy2 as [->|[->|[->|Hy2]]];
        [by right | by left | | by apply elem_of_nil in Hy2].
      exfalso. revert Hy1. apply (bool_decide_unpack _). vm_compute. exact I.
Defined.

(** ** Ranking of the built-in functions *)

Lemma builtin_su (last_word : string → string) :
  last_word "su" = "su" →
  find_matches last_word "su" functions true false
  = [MkCompletion "SUBSTR" (-2); MkCompletion "SUM" (-2)].
Proof.
  intros H. unfold find_matches. rewrite H. vm_compute. reflexivity.
Qed.

(** C10, as the code has it.  For a function suggestion without schema
    qualifier and the word ["su"], the built-in functions [SUBSTR] and
    [SUM] are both returned, after the user-defined matches; both match
    with span length 2 at position 0, and the tie is decided by the
    candidate text, so [SUBSTR] is ranked before [SUM]. *)
Theorem function_su_ranking (last_word : string → string)
    (favoritequeries_list : list string) (self : SQLCompleter) :
  last_word "su" = "su" →
  (∃ user_funcs,
     get_completions last_word favoritequeries_list self "su"
       [Suggestion "function" [] None [] false] (Some true)
     = Ok (user_funcs
           ++ [MkCompletion "SUBSTR" (-2); MkCompletion "SUM" (-2)]))
  ∧ score "su" true false "SUBSTR" = Some (2, 0, "SUBSTR")
  ∧ score "su" true false "SUM" = Some (2, 0, "SUM")
  ∧ scored_le (2, 0, "SUBSTR") (2, 0, "SUM")
  ∧ ¬ scored_le (2, 0, "SUM") (2, 0, "SUBSTR").
Proof.
  intros H. split_and!; try reflexivity.
  - rewrite get_completions_single, function_branch.
    unfold populate_schema_objects. simpl.
    rewrite (builtin_su _ H).
    destruct (md_functions (dbmetadata self) !! _); eauto.
  - apply (bool_decide_unpack _). vm_compute. exact I.
  - apply (bool_decide_unpack _). vm_compute. exact I.
Qed.

Lemma function_su_ranking_witness :
  (∃ user_funcs,
     get_completions last_word_spec [] hr_catalog "su"
       [Suggestion "function" [] None [] false] (Some true)
     = Ok (user_funcs
           ++ [MkCompletion "SUBSTR" (-2); MkCompletion "SUM" (-2)]))
  ∧ score "su" true false "SUBSTR" = Some (2, 0, "SUBSTR")
  ∧ score "su" true false "SUM" = Some (2, 0, "SUM")
  ∧ scored_le (2, 0, "SUBSTR") (2, 0, "SUM")
  ∧ ¬ scored_le (2, 0, "SUM") (2, 0, "SUBSTR").
Proof. apply (function_su_ranking last_word_spec [] hr_catalog). reflexivity. Defined.

(** C10, as stated, fails: on a fresh completer the suggestion returns
    [SUBSTR] first and [SUM] second. *)
Lemma function_su_substr_first :
  ∃ cs, get_completions last_word_spec [] (init [] [] true []) "su"
          [Suggestion "function" [] None [] false] None = Ok cs
        ∧ cs = [MkCompletion "SUBSTR" (-2); MkCompletion "SUM" (-2)]
        ∧ ¬ ranked_before "SUM" "SUBSTR" cs.
Proof.
  eexists. split; [vm_compute; reflexivity|]. split; [reflexivity|].
  intros (i & j & Hlt & Hi & Hj).
  destruct i as [|[|i]]; destruct j as [|[|j]]; simpl in *;
    try lia; discriminate.
Qed.

(** * Further properties of the matcher *)


Lemma str_find_Some sub s p :
  str_find sub s = Some p → sub `prefix_of` drop p s ∧ p + length sub ≤ length s.
Proof.
  revert p. induction s as [|c s IH]; intros p; simpl.
  - destruct (starts_with sub []) eqn:E; [|done]. intros [= <-].
    apply starts_with_prefix in E. split; [done|].
    apply prefix_length in E. simpl in *. lia.
  - destruct (starts_with sub (c :: s)) eqn:E.
    + intros [= <-]. apply starts_with_prefix in E. split; [done|].
      apply prefix_length in E. simpl in *. lia.
    + destruct (str_find sub s) as [q|] eqn:E'; [|done]. simpl.
      intros [= <-]. destruct (IH q eq_refl) as [H1 H2]. split; [done|].
      simpl. lia.
Qed.

Lemma str_find_infix sub s :
  is_Some (str_find sub s) ↔ ∃ l1 l2, s = l1 ++ sub ++ l2.
Proof.
  split.
  - intros [p Hp]. apply str_find_Some in Hp as [[k Hk] _].
    exists (take p s), k. by rewrite <- Hk, take_drop.
  - intros (l1 & l2 & ->). induction l1 as [|c l1 IH]; simpl.
    + assert (starts_with sub (sub ++ l2) = true) as E
        by (apply starts_with_prefix, prefix_app_r; done).
      destruct (sub ++ l2); simpl; rewrite E; eauto.
    + destruct (starts_with sub (c :: l1 ++ sub ++ l2)); [eauto|].
      destruct IH as [q ->]. simpl. eauto.
Qed.

Lemma str_find_take_iff sub s :
  is_Some (str_find sub (take (length sub) s)) ↔ sub `prefix_of` s.
Proof.
  split.
  - intros [p Hp]. by apply str_find_take_prefix in Hp as [_ ?].
  - intros [k ->]. rewrite take_app_length. apply str_find_infix.
    exists [], []. by rewrite app_nil_r.
Qed.

Lemma lazy_tail_complete tok s :
  newline ∉ s → tok `sublist_of` s → is_Some (lazy_tail tok s).
Proof.
  revert s. induction tok as [|d tok IH]; intros s Hnl Hsub; simpl; [eauto|].
  induction s as [|c s IHs]; [by apply sublist_nil_r in Hsub|].
  apply not_elem_of_cons in Hnl as [Hc Hnl].
  assert (Hcase : (c = d ∧ tok `sublist_of` s) ∨ (d :: tok) `sublist_of` s).
  { inversion Hsub; subst; [left|right]; done. }
  destruct (decide (c = d)) as [->|Hne].
  - destruct (lazy_tail tok s) as [m|] eqn:E; [eauto|].
    destruct Hcase as [[_ Ht]|Ht].
    + apply (IH s Hnl) in Ht. rewrite E in Ht. by destruct Ht.
    + rewrite decide_False by done.
      destruct (IHs Hnl Ht) as [q ->]. simpl. eauto.
  - destruct Hcase as [[? _]|Ht]; [done|].
    rewrite decide_False by done.
    destruct (IHs Hnl Ht) as [q ->]. simpl. eauto.
Qed.

Lemma re_search_complete tok s :
  newline ∉ s → tok `sublist_of` s → is_Some (re_search tok s).
Proof.
  destruct tok as [|c0 tok].
  { intros _ _. destruct s; simpl; eauto. }
  induction s as [|c s IH]; intros Hnl Hsub; [by apply sublist_nil_r in Hsub|].
  apply not_elem_of_cons in Hnl as [Hc Hnl].
  cbn [re_search]. destruct (match_at (c0 :: tok) (c :: s)) eqn:E; [eauto|].
  assert (Hcase : (c = c0 ∧ tok `sublist_of` s) ∨ (c0 :: tok) `sublist_of` s).
  { inversion Hsub; subst; [left|right]; done. }
  destruct Hcase as [[-> Ht]|Ht].
  - simpl in E. rewrite decide_True in E by done.
    destruct (lazy_tail_complete tok s Hnl Ht) as [q Hq]. by rewrite Hq in E.
  - destruct (IH Hnl Ht) as [q ->]. simpl. eauto.
Qed.



(** when a mode is matched, candidate by candidate *)
Lemma matched_prefix tok item :
  matched tok true false item
  ↔ Str.to_list tok `prefix_of` Str.to_list (Str.lower item).
Proof.
  unfold matched, score, str_find_in. rewrite <- to_list_length.
  rewrite <- str_find_take_iff.
  destruct (str_find _ _); split; intros [? ?]; eauto; done.
Qed.

Lemma matched_substring tok item :
  matched tok false false item
  ↔ ∃ l1 l2, Str.to_list (Str.lower item) = l1 ++ Str.to_list tok ++ l2.
Proof.
  unfold matched, score, str_find_in. rewrite <- str_find_infix.
  destruct (str_find _ _); split; intros [? ?]; eauto; done.
Qed.

Lemma matched_fuzzy tok so item :
  newline ∉ Str.to_list (Str.lower item) →
  matched tok so true item
  ↔ Str.to_list tok `sublist_of` Str.to_list (Str.lower item).
Proof.
  intros Hnl. unfold matched, score. split.
  - destruct (re_search _ _) as [[st n]|] eqn:E; [|by intros [? ?]].
    intros _. by eapply re_search_sublist.
  - intros Hs. destruct (re_search_complete _ _ Hnl Hs) as [[st n] ->]. eauto.
Qed.

Lemma elem_of_find_matches_matched last_word input col so fz c :
  c ∈ find_matches last_word input col so fz ↔
  text c ∈ col ∧ matched (Str.lower (last_word input)) so fz (text c)
  ∧ start_position c = (- Z.of_nat (Str.len (Str.lower (last_word input))))%Z.
Proof.
  rewrite elem_of_find_matches. split.
  - intros (item & k & Hin & Hs & ->). simpl. unfold matched. rewrite Hs. eauto.
  - intros (Hin & [k Hk] & Hp). exists (text c), k.
    split_and!; [done..|]. destruct c as [t p]. simpl in *. by subst.
Qed.

Lemma StronglySorted_filter {A} (R : relation A) (P : A → Prop)
    `{∀ x, Decision (P x)} l :
  StronglySorted R l → StronglySorted R (filter P l).
Proof.
  induction 1 as [|a l Hs IH Ha]; [constructor|].
  rewrite filter_cons. destruct (decide (P a)); [|done].
  constructor; [done|].
  rewrite Forall_forall in Ha. apply Forall_forall.
  intros b [_ Hb]%list_elem_of_filter. by apply Ha.
Qed.

Lemma merge_sort_sorted_id (l : list scored) :
  Sorted scored_le l → merge_sort scored_le l = l.
Proof.
  intros Hs. apply (Sorted_unique scored_le); [|done|].
  - apply Sorted_merge_sort, _.
  - apply merge_sort_Permutation.
Qed.

Lemma omap_score_filter tok so fz (l : list string) :
  (omap (score tok so fz) l).*2 = filter (matched tok so fz) l.
Proof.
  induction l as [|item l IH]; [done|].
  rewrite filter_cons. cbn [omap list_omap].
  destruct (decide (matched tok so fz item)) as [[k Hk]|Hn].
  - rewrite Hk, fmap_cons, IH. by rewrite (score_item _ _ _ _ _ Hk).
  - destruct (score tok so fz item) as [k|] eqn:E; [|done].
    exfalso. apply Hn. unfold matched. rewrite E. eauto.
Qed.

(** when every match scores the same span and start, the completions
    come in the lexicographic order of the candidates *)
Lemma find_matches_uniform last_word input col so fz a b :
  (∀ item k, score (Str.lower (last_word input)) so fz item = Some k →
             k = (a, b, item)) →
  find_matches last_word input col so fz
  = completion_of (Str.lower (last_word input))
      <$> filter (matched (Str.lower (last_word input)) so fz) (sorted_str col).
Proof.
  intros Hu. unfold find_matches.
  set (tok := Str.lower (last_word input)) in *.
  assert (Hk : omap (score tok so fz) (sorted_str col)
               = (λ item, (a, b, item))
                   <$> filter (matched tok so fz) (sorted_str col)).
  { rewrite <- omap_score_filter.
    induction (sorted_str col) as [|item l IH]; [done|].
    cbn [omap list_omap]. destruct (score tok so fz item) as [k|] eqn:E; [|done].
    rewrite !fmap_cons, <- IH. by rewrite (Hu _ _ E). }
  rewrite Hk, merge_sort_sorted_id.
  - rewrite <- list_fmap_compose. by apply list_fmap_ext.
  - apply StronglySorted_Sorted.
    apply (StronglySorted_fmap _ String.le).
    + intros x y Hxy. unfold scored_le. simpl. right. split; [done|].
      right. by split.
    + apply StronglySorted_filter. unfold sorted_str.
      apply StronglySorted_merge_sort; apply _.
Qed.

Lemma score_start_only tok item k :
  score tok true false item = Some k → k = (Str.len tok, 0, item).
Proof.
  unfold score, str_find_in.
  destruct (str_find _ _) as [p|] eqn:E; [|done]. intros [= <-].
  rewrite <- to_list_length in E.
  by apply str_find_take_prefix in E as [-> _].
Qed.

Lemma score_empty so fz item : score "" so fz item = Some (0, 0, item).
Proof.
  unfold score. destruct fz.
  - by destruct (Str.to_list (Str.lower item)).
  - destruct so; simpl; [done|]. by destruct (Str.to_list (Str.lower item)).
Qed.

(** X1.  Prefix mode returns exactly the candidates of the collection
    whose lowercased text starts with the token ([start_only=True]), or
    holds the token as a contiguous substring ([start_only=False]). *)
Theorem find_matches_prefix_iff (last_word : string → string)
    (input : string) (col : list string) (c : Completion) :
  let tok := Str.lower (last_word input) in
  let cand := Str.to_list (Str.lower (text c)) in
  (c ∈ find_matches last_word input col true false ↔
     text c ∈ col ∧ Str.to_list tok `prefix_of` cand
     ∧ start_position c = (- Z.of_nat (Str.len tok))%Z)
  ∧ (c ∈ find_matches last_word input col false false ↔
       text c ∈ col ∧ (∃ l1 l2, cand = l1 ++ Str.to_list tok ++ l2)
       ∧ start_position c = (- Z.of_nat (Str.len tok))%Z).
Proof.
  intros tok cand. split.
  - by rewrite elem_of_find_matches_matched, matched_prefix.
  - by rewrite elem_of_find_matches_matched, matched_substring.
Qed.

(** X2.  Fuzzy mode is complete on candidates without a line break:
    such a candidate is returned exactly when it belongs to the
    collection and its lowercased text holds the characters of the token
    as a subsequence. *)
Theorem find_matches_fuzzy_iff (last_word : string → string)
    (input : string) (col : list string) (start_only : bool) (c : Completion) :
  let tok := Str.lower (last_word input) in
  let cand := Str.to_list (Str.lower (text c)) in
  newline ∉ cand →
  (c ∈ find_matches last_word input col start_only true ↔
     text c ∈ col ∧ Str.to_list tok `sublist_of` cand
     ∧ start_position c = (- Z.of_nat (Str.len tok))%Z).
Proof.
  intros tok cand Hnl.
  by rewrite elem_of_find_matches_matched, (matched_fuzzy _ _ _ Hnl).
Qed.

Lemma find_matches_fuzzy_iff_witness :
  MkCompletion "FIRST_NAME" (-3)
    ∈ find_matches last_word_spec "frn" ["LAST_NAME"; "FIRST_NAME"] false true.
Proof.
  apply (find_matches_fuzzy_iff last_word_spec "frn"
           ["LAST_NAME"; "FIRST_NAME"] false (MkCompletion "FIRST_NAME" (-3))).
  - apply (bool_decide_unpack _). vm_compute. exact I.
  - split_and!.
    + apply (bool_decide_unpack _). vm_compute. exact I.
    + simpl. apply sublist_skip, sublist_cons, sublist_skip.
      do 3 apply sublist_cons. apply sublist_skip. apply sublist_nil_l.
    + reflexivity.
Defined.

(** X3.  The texts [find_matches] returns are, up to order, the
    candidates of the collection that match, each as often as the
    collection holds it: nothing is dropped, merged or invented. *)
Theorem find_matches_texts (last_word : string → string)
    (input : string) (col : list string) (start_only fuzzy : bool) :
  text <$> find_matches last_word input col start_only fuzzy
  ≡ₚ filter (matched (Str.lower (last_word input)) start_only fuzzy) col.
Proof.
  unfold find_matches. rewrite <- list_fmap_compose.
  set (tok := Str.lower (last_word input)).
  set (ks := omap (score tok start_only fuzzy) (sorted_str col)).
  assert (Hsnd : (text ∘ (λ c : scored, MkCompletion c.2 (- Z.of_nat (Str.len tok))))
                   <$> merge_sort scored_le ks
                 = (merge_sort scored_le ks).*2)
    by by apply list_fmap_ext.
  rewrite Hsnd. subst ks.
  rewrite merge_sort_Permutation, omap_score_filter.
  unfold sorted_str. by rewrite merge_sort_Permutation.
Qed.

(** X4.  In prefix mode with [start_only=True] every match has the same
    score, so the completions are the matching candidates in
    lexicographic (code point) order of their text. *)
Theorem find_matches_start_only_order (last_word : string → string)
    (input : string) (col : list string) :
  find_matches last_word input col true false
  = completion_of (Str.lower (last_word input))
      <$> filter (matched (Str.lower (last_word input)) true false)
            (sorted_str col).
Proof.
  apply (find_matches_uniform _ _ _ _ _ (Str.len (Str.lower (last_word input))) 0).
  intros item k. apply score_start_only.
Qed.

(** X5.  When the input ends in no word (the token is empty) every
    candidate matches in either mode, and the whole collection is
    returned in lexicographic order with start position 0. *)
Theorem find_matches_empty_token (last_word : string → string)
    (input : string) (col : list string) (start_only fuzzy : bool) :
  Str.lower (last_word input) = "" →
  find_matches last_word input col start_only fuzzy
  = (λ item, MkCompletion item 0) <$> sorted_str col.
Proof.
  intros Ht.
  rewrite (find_matches_uniform _ _ _ _ _ 0 0); rewrite Ht.
  - f_equal. induction (sorted_str col) as [|item l IH]; [done|].
    rewrite filter_cons_True, IH; [done|].
    unfold matched. rewrite score_empty. eauto.
  - intros item k. rewrite score_empty. by intros [= <-].
Qed.

Lemma find_matches_empty_token_witness :
  find_matches last_word_spec "select " ["b"; "A"; "a"] false true
  = [MkCompletion "A" 0; MkCompletion "a" 0; MkCompletion "b" 0].
Proof.
  apply (find_matches_empty_token last_word_spec "select " ["b"; "A"; "a"]).
  reflexivity.
Defined.



(** * Further properties of the catalog *)

Lemma to_list_app s1 s2 :
  Str.to_list (s1 +:+ s2) = Str.to_list s1 ++ Str.to_list s2.
Proof. induction s1 as [|c s1 IH]; simpl; [done|]. by rewrite <- IH. Qed.

(** X7.  [unescape_name] undoes one level of double quotes, and returns
    unchanged every name that does not both start and end with a double
    quote. *)
Theorem unescape_name_spec :
  (∀ s, unescape_name (quote_name s) = s)
  ∧ (∀ name,
       Str.first_char name ≠ Some dquote ∨ Str.last_char name ≠ Some dquote →
       unescape_name name = name).
Proof.
  split.
  - intros s. unfold unescape_name, quote_name, Str.first_char, Str.last_char.
    cbn [Str.to_list head]. rewrite to_list_app. cbn [Str.to_list].
    assert (Hl : last (dquote :: Str.to_list s ++ [dquote]) = Some dquote).
    { change (dquote :: Str.to_list s ++ [dquote])
        with ((dquote :: Str.to_list s) ++ [dquote]).
      apply last_snoc. }
    rewrite Hl, !decide_True by done.
    unfold Str.strip_ends. cbn [Str.to_list]. rewrite to_list_app.
    cbn [Str.to_list]. rewrite length_app. simpl.
    replace (length (Str.to_list s) + 1 - 1) with (length (Str.to_list s)) by lia.
    rewrite take_app_length. apply of_to_list.
  - intros name H. unfold unescape_name.
    destruct (Str.first_char name) as [a|]; [|done].
    destruct (Str.last_char name) as [b|]; [|done].
    destruct (decide (a = dquote)) as [->|]; [|done].
    destruct (decide (b = dquote)) as [->|]; [|done].
    by destruct H.
Qed.

Lemma unescape_name_spec_witness :
  unescape_name "EMPLOYEES" = "EMPLOYEES".
Proof.
  apply (proj2 unescape_name_spec). left. discriminate.
Defined.

Lemma escaped_rows_consume (g : lazy_seq row) rows :
  consume g = Some rows → escaped_rows g = rows.
Proof.
  unfold escaped_rows. intros ->.
  induction rows as [|r rows IH]; [done|].
  rewrite fmap_cons. by rewrite escaped_names_id, IH.
Qed.

(** the loop of [extend_relations] over rows that all have a first field *)
Lemma extend_relations_loop_spec k schema rows self :
  Forall (λ r : row, r ≠ []) rows →
  (extend_relations_loop k schema rows self).2 = None
  ∧ (∀ x, x ∈ all_completions (extend_relations_loop k schema rows self).1
          ↔ x ∈ heads rows ∨ x ∈ all_completions self)
  ∧ (∀ k', k' ≠ k →
       md_get k' (dbmetadata (extend_relations_loop k schema rows self).1)
       = md_get k' (dbmetadata self))
  ∧ (md_get k (dbmetadata self) !! schema = None →
       dbmetadata (extend_relations_loop k schema rows self).1 = dbmetadata self)
  ∧ (is_Some (md_get k (dbmetadata self) !! schema) →
       ∀ schema' name,
         getitem2 (md_get k (dbmetadata (extend_relations_loop k schema rows self).1))
           schema' name
         = if decide (schema' = schema ∧ name ∈ heads rows)
           then Some (PyList ["*"])
           else getitem2 (md_get k (dbmetadata self)) schema' name).
Proof.
  intros Hne. revert self. induction Hne as [|r rows Hr Hne IH]; intros self.
  - simpl. split_and!; try done.
    + intros x. unfold heads. simpl. rewrite elem_of_nil. tauto.
    + intros _ schema' name. rewrite decide_False; [done|].
      unfold heads. simpl. rewrite elem_of_nil. tauto.
  - destruct r as [|name rest]; [done|]. cbn [extend_relations_loop].
    set (self1 := match setitem2 _ _ _ _ with Some m => _ | None => self end).
    set (self2 := with_all_completions _ self1).
    destruct (IH self2) as (H1 & H2 & H3 & H4 & H5).
    assert (Hh : heads ((name :: rest) :: rows) = name :: heads rows) by done.
    rewrite Hh. split_and!.
    + done.
    + intros x. rewrite H2. subst self2. simpl.
      rewrite elem_of_union, elem_of_singleton, elem_of_cons.
      assert (all_completions self1 = all_completions self) as ->.
      { subst self1. by destruct (setitem2 _ _ _ _). }
      tauto.
    + intros k' Hk'. rewrite (H3 k' Hk'). subst self2 self1. simpl.
      destruct (setitem2 _ _ _ _); [|done]. simpl.
      rewrite md_get_set. by rewrite decide_False.
    + intros Hn. assert (self1 = self) as Hs.
      { subst self1. unfold setitem2. by rewrite Hn. }
      rewrite H4; subst self2; simpl; by rewrite Hs.
    + intros [objs Ho] schema' name'.
      assert (Hm : md_get k (dbmetadata self2)
                   = <[schema := <[name := PyList ["*"]]> objs]>
                       (md_get k (dbmetadata self))).
      { subst self2 self1. unfold setitem2. rewrite Ho. simpl.
        rewrite md_get_set. by rewrite decide_True. }
      rewrite H5; [|rewrite Hm, lookup_insert_eq; eauto].
      rewrite Hm, getitem2_insert.
      destruct (decide (schema' = schema)) as [->|Hs].
      * rewrite (decide_True (P := schema = schema)) by done.
        destruct (decide (name' ∈ heads rows)) as [Hin|Hin].
        -- rewrite !decide_True; [done| |done].
           split; [done|]. by apply list_elem_of_further.
        -- rewrite (decide_False (P := schema = schema ∧ name' ∈ heads rows))
             by tauto.
           destruct (decide (name = name')) as [->|Hn].
           ++ rewrite decide_True; [done|]. split; [done|].
              apply list_elem_of_here.
           ++ rewrite decide_False.
              ** unfold getitem2. by rewrite Ho.
              ** rewrite elem_of_cons. intros [_ [?|?]]; [|done]. by subst.
      * rewrite !(decide_False (P := schema' = schema ∧ _)) by tauto.
        rewrite decide_False; [done|]. by intros ->.
Qed.

Lemma extend_relations_loop_app k schema l1 l2 self :
  extend_relations_loop k schema (l1 ++ l2) self
  = match (extend_relations_loop k schema l1 self).2 with
    | None =>
        extend_relations_loop k schema l2
          (extend_relations_loop k schema l1 self).1
    | Some e => extend_relations_loop k schema l1 self
    end.
Proof.
  revert self. induction l1 as [|r l1 IH]; intros self; [done|].
  destruct r as [|name rest]; [done|]. cbn [app extend_relations_loop].
  apply IH.
Qed.

(** X8.  [extend_relations] into a registered schema, from rows that all
    name a relation: the call returns normally, every relation of the
    batch is stored under the uppercased schema with the column list
    [['*']] (a relation that was there before loses its columns), and
    every other cell of the catalog is as it was. *)
Theorem extend_relations_registers (g : lazy_seq row) (rows : list row)
    (kind_key schema : string) (k : kind) (self : SQLCompleter) :
  consume g = Some rows →
  Forall (λ r : row, r ≠ []) rows →
  kind_of_key kind_key = Some k →
  Str.upper schema ∈ dom (md_get k (dbmetadata self)) →
  let r := extend_relations g kind_key schema self in
  r.2 = None
  ∧ (∀ schema' name,
       getitem2 (md_get k (dbmetadata r.1)) schema' name
       = if decide (schema' = Str.upper schema ∧ name ∈ heads rows)
         then Some (PyList ["*"])
         else getitem2 (md_get k (dbmetadata self)) schema' name)
  ∧ (∀ k', k' ≠ k →
       md_get k' (dbmetadata r.1) = md_get k' (dbmetadata self)).
Proof.
  intros Hg Hne Hk Hd r. subst r. unfold extend_relations.
  rewrite Hk, (escaped_rows_consume _ _ Hg).
  destruct (extend_relations_loop_spec k (Str.upper schema) rows self Hne)
    as (H1 & _ & H3 & _ & H5).
  split_and!; [done| |done].
  apply H5. by apply elem_of_dom.
Qed.

Lemma extend_relations_registers_witness :
  let r := extend_relations (of_rows [["EMPLOYEES"]; ["JOBS"]]) "tables" "hr"
             hr_catalog in
  r.2 = None
  ∧ (∀ schema' name,
       getitem2 (md_get Tables (dbmetadata r.1)) schema' name
       = if decide (schema' = Str.upper "hr"
                    ∧ name ∈ heads [["EMPLOYEES"]; ["JOBS"]])
         then Some (PyList ["*"])
         else getitem2 (md_get Tables (dbmetadata hr_catalog)) schema' name)
  ∧ (∀ k', k' ≠ Tables →
       md_get k' (dbmetadata r.1) = md_get k' (dbmetadata hr_catalog)).
Proof.
  apply (extend_relations_registers (of_rows [["EMPLOYEES"]; ["JOBS"]])
           [["EMPLOYEES"]; ["JOBS"]] "tables" "hr" Tables hr_catalog).
  - reflexivity.
  - repeat constructor; discriminate.
  - reflexivity.
  - apply (bool_decide_unpack _). vm_compute. exact I.
Defined.

(** X9.  [extend_relations] for a schema that was never registered:
    the [KeyError] is swallowed, the call returns normally and the
    object maps are untouched, but the relation names are added to
    [all_completions] all the same. *)
Theorem extend_relations_unknown_schema (g : lazy_seq row) (rows : list row)
    (kind_key schema : string) (k : kind) (self : SQLCompleter) :
  consume g = Some rows →
  Forall (λ r : row, r ≠ []) rows →
  kind_of_key kind_key = Some k →
  md_get k (dbmetadata self) !! Str.upper schema = None →
  let r := extend_relations g kind_key schema self in
  r.2 = None
  ∧ dbmetadata r.1 = dbmetadata self
  ∧ (∀ x, x ∈ all_completions r.1 ↔ x ∈ heads rows ∨ x ∈ all_completions self).
Proof.
  intros Hg Hne Hk Hn r. subst r. unfold extend_relations.
  rewrite Hk, (escaped_rows_consume _ _ Hg).
  destruct (extend_relations_loop_spec k (Str.upper schema) rows self Hne)
    as (H1 & H2 & _ & H4 & _).
  split_and!; [done| |done]. by apply H4.
Qed.

Lemma extend_relations_unknown_schema_witness :
  let r := extend_relations (of_rows [["ORDERS"]]) "tables" "sales" hr_catalog in
  r.2 = None
  ∧ dbmetadata r.1 = dbmetadata hr_catalog
  ∧ (∀ x, x ∈ all_completions r.1
          ↔ x ∈ heads [["ORDERS"]] ∨ x ∈ all_completions hr_catalog).
Proof.
  apply (extend_relations_unknown_schema (of_rows [["ORDERS"]]) [["ORDERS"]]
           "tables" "sales" Tables hr_catalog).
  - reflexivity.
  - repeat constructor; discriminate.
  - reflexivity.
  - vm_compute. reflexivity.
Defined.

(** X10.  An empty row stops [extend_relations] with [IndexError]; the
    rows before it have been applied, the rows after it have not. *)
Theorem extend_relations_empty_row (g : lazy_seq row) (pre post : list row)
    (kind_key schema : string) (k : kind) (self : SQLCompleter) :
  consume g = Some (pre ++ [] :: post) →
  Forall (λ r : row, r ≠ []) pre →
  kind_of_key kind_key = Some k →
  extend_relations g kind_key schema self
  = ((extend_relations (of_rows pre) kind_key schema self).1, Some IndexError).
Proof.
  intros Hg Hne Hk. unfold extend_relations.
  rewrite Hk, (escaped_rows_consume _ _ Hg), escaped_rows_of_rows.
  rewrite extend_relations_loop_app.
  destruct (extend_relations_loop_spec k (Str.upper schema) pre self Hne)
    as (-> & _).
  reflexivity.
Qed.

Lemma extend_relations_empty_row_witness :
  extend_relations (of_rows [["JOBS"]; []; ["LOCATIONS"]]) "tables" "hr" hr_catalog
  = ((extend_relations (of_rows [["JOBS"]]) "tables" "hr" hr_catalog).1,
     Some IndexError).
Proof.
  apply (extend_relations_empty_row _ [["JOBS"]] [["LOCATIONS"]] _ _ Tables).
  - reflexivity.
  - repeat constructor; discriminate.
  - reflexivity.
Defined.

Lemma cell_append_nil v : cell_append [] v = v.
Proof. destruct v; simpl; [|done]. by rewrite app_nil_r. Qed.

Lemma cols_for_cons relname p pairs :
  cols_for relname (p :: pairs)
  = if decide (p.1 = relname) then p.2 :: cols_for relname pairs
    else cols_for relname pairs.
Proof. unfold cols_for. rewrite filter_cons. by destruct (decide _). Qed.

(** the loop of [extend_columns] over pairs whose relations are all
    registered with a column list *)
Lemma extend_columns_loop_spec k schema pairs self :
  (∀ p, p ∈ pairs →
     ∃ cols, getitem2 (md_get k (dbmetadata self)) schema p.1
             = Some (PyList cols)) →
  (extend_columns_loop k schema (pair_rows pairs) self).2 = None
  ∧ (∀ x, x ∈ all_completions
              (extend_columns_loop k schema (pair_rows pairs) self).1
          ↔ x ∈ pairs.*2 ∨ x ∈ all_completions self)
  ∧ (∀ k', k' ≠ k →
       md_get k' (dbmetadata
                    (extend_columns_loop k schema (pair_rows pairs) self).1)
       = md_get k' (dbmetadata self))
  ∧ (∀ schema' name,
       getitem2 (md_get k (dbmetadata
                   (extend_columns_loop k schema (pair_rows pairs) self).1))
         schema' name
       = if decide (schema' = schema)
         then cell_append (cols_for name pairs)
                <$> getitem2 (md_get k (dbmetadata self)) schema name
         else getitem2 (md_get k (dbmetadata self)) schema' name).
Proof.
  revert self. induction pairs as [|[rel c] pairs IH]; intros self Hreg.
  - simpl. split_and!; try done.
    + intros x. rewrite elem_of_nil. tauto.
    + intros schema' name. destruct (decide (schema' = schema)) as [->|]; [|done].
      destruct (getitem2 _ schema name) as [v|]; simpl; [|done].
      by rewrite cell_append_nil.
  - destruct (Hreg (rel, c)) as [cols Hc]; [apply list_elem_of_here|].
    simpl in Hc. unfold pair_rows. rewrite fmap_cons.
    cbn [extend_columns_loop fst snd]. rewrite Hc.
    assert (Ho : ∃ objs, md_get k (dbmetadata self) !! schema = Some objs
                         ∧ objs !! rel = Some (PyList cols)).
    { unfold getitem2 in Hc.
      destruct (md_get k (dbmetadata self) !! schema) as [objs|]; [|done].
      eauto. }
    destruct Ho as (objs & Ho & Hrel). rewrite Ho. cbn [default].
    set (m' := <[schema := <[rel := PyList (cols ++ [c])]> objs]>
                 (md_get k (dbmetadata self))).
    set (self2 := with_all_completions _ _).
    assert (Hm : md_get k (dbmetadata self2) = m').
    { subst self2. simpl. rewrite md_get_set. by rewrite decide_True. }
    assert (Hg : ∀ name, getitem2 m' schema name
                 = if decide (rel = name) then Some (PyList (cols ++ [c]))
                   else getitem2 (md_get k (dbmetadata self)) schema name).
    { intros name. subst m'. rewrite getitem2_insert, decide_True by done.
      destruct (decide (rel = name)); [done|]. unfold getitem2. by rewrite Ho. }
    destruct (IH self2) as (H1 & H2 & H3 & H4).
    { intros p Hp. rewrite Hm, Hg. destruct (decide (rel = p.1)); [eauto|].
      apply Hreg. by apply list_elem_of_further. }
    fold (pair_rows pairs). split_and!.
    + done.
    + intros x. rewrite H2. subst self2. simpl.
      rewrite elem_of_union, elem_of_singleton, elem_of_cons. tauto.
    + intros k' Hk'. rewrite (H3 k' Hk'). subst self2. simpl.
      rewrite md_get_set. by rewrite decide_False.
    + intros schema' name. rewrite H4, Hm, cols_for_cons. simpl.
      destruct (decide (schema' = schema)) as [->|Hs].
      * rewrite Hg. destruct (decide (rel = name)) as [->|Hn].
        -- rewrite Hc. simpl. by rewrite <- app_assoc.
        -- done.
      * subst m'. rewrite getitem2_insert. rewrite decide_False; [done|].
        by intros ->.
Qed.

Lemma extend_columns_loop_app k schema l1 l2 self :
  extend_columns_loop k schema (l1 ++ l2) self
  = match (extend_columns_loop k schema l1 self).2 with
    | None =>
        extend_columns_loop k schema l2 (extend_columns_loop k schema l1 self).1
    | Some e => extend_columns_loop k schema l1 self
    end.
Proof.
  revert self. induction l1 as [|r l1 IH]; intros self; [done|].
  destruct r as [|relname [|column [|? ?]]]; try done.
  cbn [app extend_columns_loop].
  destruct (getitem2 _ schema relname) as [[cols|]|]; first [done | apply IH].
Qed.

Lemma cols_for_same relname (cs : list string) :
  cols_for relname ((λ c, (relname, c)) <$> cs) = cs.
Proof.
  induction cs as [|c cs IH]; [done|].
  rewrite fmap_cons, cols_for_cons. simpl. by rewrite decide_True, IH.
Qed.

(** X11.  [extend_columns] over pairs whose relations are all registered
    under the uppercased schema: the call returns normally, every
    relation gains the columns the batch holds for it, in batch order,
    at the end of its column list, every other cell is as it was, and
    the columns are added to [all_completions]. *)
Theorem extend_columns_appends (g : lazy_seq row)
    (pairs : list (string * string)) (kind_key schema : string) (k : kind)
    (self : SQLCompleter) :
  consume g = Some (pair_rows pairs) →
  kind_of_key kind_key = Some k →
  (∀ p, p ∈ pairs →
     ∃ cols, getitem2 (md_get k (dbmetadata self)) (Str.upper schema) p.1
             = Some (PyList cols)) →
  let r := extend_columns g kind_key schema self in
  r.2 = None
  ∧ (∀ schema' name,
       getitem2 (md_get k (dbmetadata r.1)) schema' name
       = if decide (schema' = Str.upper schema)
         then cell_append (cols_for name pairs)
                <$> getitem2 (md_get k (dbmetadata self)) (Str.upper schema) name
         else getitem2 (md_get k (dbmetadata self)) schema' name)
  ∧ (∀ k', k' ≠ k → md_get k' (dbmetadata r.1) = md_get k' (dbmetadata self))
  ∧ (∀ x, x ∈ all_completions r.1 ↔ x ∈ pairs.*2 ∨ x ∈ all_completions self).
Proof.
  intros Hg Hk Hreg r. subst r. unfold extend_columns.
  rewrite Hk, (escaped_rows_consume _ _ Hg).
  destruct (extend_columns_loop_spec k (Str.upper schema) pairs self Hreg)
    as (H1 & H2 & H3 & H4).
  by split_and!.
Qed.

Lemma extend_columns_appends_witness :
  let pairs := [("EMPLOYEES", "SALARY"); ("DEPARTMENTS", "CITY");
                ("EMPLOYEES", "HIRE_DATE")] in
  let r := extend_columns (of_rows (pair_rows pairs)) "tables" "hr" hr_catalog in
  r.2 = None
  ∧ (∀ schema' name,
       getitem2 (md_get Tables (dbmetadata r.1)) schema' name
       = if decide (schema' = Str.upper "hr")
         then cell_append (cols_for name pairs)
                <$> getitem2 (md_get Tables (dbmetadata hr_catalog))
                      (Str.upper "hr") name
         else getitem2 (md_get Tables (dbmetadata hr_catalog)) schema' name)
  ∧ (∀ k', k' ≠ Tables →
       md_get k' (dbmetadata r.1) = md_get k' (dbmetadata hr_catalog))
  ∧ (∀ x, x ∈ all_completions r.1
          ↔ x ∈ pairs.*2 ∨ x ∈ all_completions hr_catalog).
Proof.
  intros pairs.
  apply (extend_columns_appends (of_rows (pair_rows pairs)) pairs
           "tables" "hr" Tables hr_catalog).
  - apply consume_of_rows.
  - reflexivity.
  - intros p Hp. unfold pairs in Hp. rewrite !elem_of_cons in Hp.
    destruct Hp as [->|[->|[->|Hp]]]; [| | |by apply elem_of_nil in Hp];
      eexists; vm_compute; reflexivity.
Defined.

(** X12.  Registering a table in a registered schema, feeding its
    columns and resolving a reference to it gives the wildcard followed
    by the columns in the order they were fed. *)
Theorem register_columns_resolve (self : SQLCompleter) (S R : string)
    (cs : list string) :
  S ≠ "" →
  Str.upper S ∈ dom (md_tables (dbmetadata self)) →
  let s1 := (extend_relations (of_rows [[R]]) "tables" S self).1 in
  let s2 := (extend_columns (of_rows (pair_rows ((λ c, (R, c)) <$> cs)))
               "tables" S s1).1 in
  populate_scoped_cols s2 [TblRef (Some S) R None] = Ok ("*" :: cs).
Proof.
  intros HS Hd s1 s2.
  assert (H1 : getitem2 (md_get Tables (dbmetadata s1)) (Str.upper S) R
               = Some (PyList ["*"])).
  { subst s1. unfold extend_relations. cbn [kind_of_key decide].
    rewrite escaped_rows_of_rows.
    destruct (extend_relations_loop_spec Tables (Str.upper S) [[R]] self)
      as (_ & _ & _ & _ & H5); [repeat constructor; discriminate|].
    rewrite H5; [|by apply elem_of_dom].
    rewrite decide_True; [done|]. split; [done|]. apply list_elem_of_here. }
  assert (H2 : getitem2 (md_get Tables (dbmetadata s2)) (Str.upper S) R
               = Some (PyList ("*" :: cs))).
  { subst s2. unfold extend_columns. cbn [kind_of_key decide].
    rewrite escaped_rows_of_rows.
    destruct (extend_columns_loop_spec Tables (Str.upper S)
                ((λ c, (R, c)) <$> cs) s1) as (_ & _ & _ & H4).
    { intros p (c & -> & _)%list_elem_of_fmap. simpl. eauto. }
    rewrite H4, decide_True, H1 by done. simpl. by rewrite cols_for_same. }
  unfold populate_scoped_cols. cbn [populate_scoped_cols_loop ref_schema ref_name py_or].
  rewrite (decide_False _ _ HS). simpl in H2. by rewrite H2.
Qed.

Lemma register_columns_resolve_witness :
  let s1 := (extend_relations (of_rows [["JOBS"]]) "tables" "hr" hr_catalog).1 in
  let s2 := (extend_columns
               (of_rows (pair_rows ((λ c, ("JOBS", c)) <$> ["JOB_ID"; "TITLE"])))
               "tables" "hr" s1).1 in
  populate_scoped_cols s2 [TblRef (Some "hr") "JOBS" None]
  = Ok ["*"; "JOB_ID"; "TITLE"].
Proof.
  apply (register_columns_resolve hr_catalog "hr" "JOBS" ["JOB_ID"; "TITLE"]).
  - discriminate.
  - apply (bool_decide_unpack _). vm_compute. exact I.
Defined.

(** X13.  A row [extend_columns] cannot apply stops the call: a row that
    is not a pair raises [ValueError], a pair whose relation is not
    registered raises [KeyError], a pair that names a function entry
    raises [AttributeError].  The rows before it stay applied and the
    rows after it are not looked at. *)
Theorem extend_columns_stops (g : lazy_seq row)
    (pairs : list (string * string)) (bad : row) (post : list row)
    (kind_key schema : string) (k : kind) (self : SQLCompleter) :
  consume g = Some (pair_rows pairs ++ bad :: post) →
  kind_of_key kind_key = Some k →
  (∀ p, p ∈ pairs →
     ∃ cols, getitem2 (md_get k (dbmetadata self)) (Str.upper schema) p.1
             = Some (PyList cols)) →
  let s1 := (extend_columns (of_rows (pair_rows pairs)) kind_key schema self).1 in
  (length bad ≠ 2 →
     extend_columns g kind_key schema self = (s1, Some ValueError))
  ∧ (∀ relname column,
       bad = [relname; column] →
       getitem2 (md_get k (dbmetadata s1)) (Str.upper schema) relname = None →
       extend_columns g kind_key schema self = (s1, Some KeyError))
  ∧ (∀ relname column,
       bad = [relname; column] →
       getitem2 (md_get k (dbmetadata s1)) (Str.upper schema) relname
         = Some PyNone →
       extend_columns g kind_key schema self = (s1, Some AttributeError)).
Proof.
  intros Hg Hk Hreg s1. subst s1. unfold extend_columns.
  rewrite Hk, (escaped_rows_consume _ _ Hg), escaped_rows_of_rows.
  rewrite extend_columns_loop_app.
  destruct (extend_columns_loop_spec k (Str.upper schema) pairs self Hreg)
    as (-> & _).
  split_and!.
  - intros Hl. by destruct bad as [|? [|? [|? ?]]].
  - intros relname column -> Hn. cbn [extend_columns_loop]. by rewrite Hn.
  - intros relname column -> Hn. cbn [extend_columns_loop]. by rewrite Hn.
Qed.

Lemma extend_columns_stops_witness :
  let s1 := (extend_columns (of_rows (pair_rows [("EMPLOYEES", "SALARY")]))
               "tables" "hr" hr_catalog).1 in
  extend_columns
    (of_rows (pair_rows [("EMPLOYEES", "SALARY")] ++ ["JOBS"] :: [["JOBS"; "TITLE"]]))
    "tables" "hr" hr_catalog = (s1, Some ValueError)
  ∧ extend_columns
      (of_rows (pair_rows [("EMPLOYEES", "SALARY")] ++ ["JOBS"; "TITLE"] :: []))
      "tables" "hr" hr_catalog = (s1, Some KeyError).
Proof.
  intros s1.
  assert (Hreg : ∀ p, p ∈ [("EMPLOYEES", "SALARY")] →
            ∃ cols, getitem2 (md_get Tables (dbmetadata hr_catalog))
                      (Str.upper "hr") p.1 = Some (PyList cols)).
  { intros p Hp. apply list_elem_of_singleton in Hp as ->.
    eexists. vm_compute. reflexivity. }
  split.
  - destruct (extend_columns_stops
                (of_rows (pair_rows [("EMPLOYEES", "SALARY")]
                          ++ ["JOBS"] :: [["JOBS"; "TITLE"]]))
                [("EMPLOYEES", "SALARY")] ["JOBS"] [["JOBS"; "TITLE"]]
                "tables" "hr" Tables hr_catalog) as (H1 & _ & _);
      [apply consume_of_rows | reflexivity | exact Hreg |].
    apply H1. simpl. lia.
  - destruct (extend_columns_stops
                (of_rows (pair_rows [("EMPLOYEES", "SALARY")]
                          ++ ["JOBS"; "TITLE"] :: []))
                [("EMPLOYEES", "SALARY")] ["JOBS"; "TITLE"] []
                "tables" "hr" Tables hr_catalog) as (_ & H2 & _);
      [apply consume_of_rows | reflexivity | exact Hreg |].
    apply (H2 "JOBS" "TITLE"); [reflexivity|]. vm_compute. reflexivity.
Defined.

(** the loop of [extend_functions] in a registered schema *)
Lemma extend_functions_loop_spec schema rows self :
  Forall (λ r : row, r ≠ []) rows →
  is_Some (md_functions (dbmetadata self) !! schema) →
  (extend_functions_loop schema rows self).2 = None
  ∧ (∀ x, x ∈ all_completions (extend_functions_loop schema rows self).1
          ↔ x ∈ heads rows ∨ x ∈ all_completions self)
  ∧ md_tables (dbmetadata (extend_functions_loop schema rows self).1)
    = md_tables (dbmetadata self)
  ∧ md_views (dbmetadata (extend_functions_loop schema rows self).1)
    = md_views (dbmetadata self)
  ∧ (∀ schema' name,
       getitem2 (md_functions
                   (dbmetadata (extend_functions_loop schema rows self).1))
         schema' name
       = if decide (schema' = schema ∧ name ∈ heads rows)
         then Some PyNone
         else getitem2 (md_functions (dbmetadata self)) schema' name).
Proof.
  intros Hne. revert self. induction Hne as [|r rows Hr Hne IH]; intros self Hreg.
  - simpl. split_and!; try done.
    + intros x. unfold heads. simpl. rewrite elem_of_nil. tauto.
    + intros schema' name. rewrite decide_False; [done|].
      unfold heads. simpl. rewrite elem_of_nil. tauto.
  - destruct r as [|name rest]; [done|]. destruct Hreg as [objs Ho].
    cbn [extend_functions_loop]. rewrite Ho.
    set (m' := <[schema := <[name := PyNone]> objs]>
                 (md_functions (dbmetadata self))).
    set (self2 := with_all_completions _ _).
    assert (Hm : md_functions (dbmetadata self2) = m') by done.
    destruct (IH self2) as (H1 & H2 & H3 & H4 & H5).
    { rewrite Hm. subst m'. rewrite lookup_insert_eq. eauto. }
    assert (Hh : heads ((name :: rest) :: rows) = name :: heads rows) by done.
    rewrite Hh. split_and!; [done| |by rewrite H3|by rewrite H4|].
    + intros x. rewrite H2. subst self2. simpl.
      rewrite elem_of_union, elem_of_singleton, elem_of_cons. tauto.
    + intros schema' name'. rewrite H5, Hm. subst m'. rewrite getitem2_insert.
      destruct (decide (schema' = schema)) as [->|Hs].
      * rewrite (decide_True (P := schema = schema)) by done.
        destruct (decide (name' ∈ heads rows)) as [Hin|Hin].
        -- rewrite !decide_True; [done| |done].
           split; [done|]. by apply list_elem_of_further.
        -- rewrite (decide_False (P := schema = schema ∧ name' ∈ heads rows))
             by tauto.
           destruct (decide (name = name')) as [->|Hn].
           ++ rewrite decide_True; [done|]. split; [done|].
              apply list_elem_of_here.
           ++ rewrite decide_False.
              ** unfold getitem2. by rewrite Ho.
              ** rewrite elem_of_cons. intros [_ [?|?]]; [|done]. by subst.
      * rewrite !(decide_False (P := schema' = schema ∧ _)) by tauto.
        rewrite decide_False; [done|]. by intros ->.
Qed.

(** X14.  [extend_functions] looks the schema up as it is given, without
    uppercasing it: with at least one row and a schema that is not a key
    of the functions map it raises [KeyError] and changes nothing.  A
    schema registered through [extend_schemata] under a name that is not
    already uppercase is therefore not found under that name. *)
Theorem extend_functions_unknown_schema (g : lazy_seq row) (r : row)
    (rows : list row) (schema : string) (self : SQLCompleter) :
  consume g = Some (r :: rows) →
  (md_functions (dbmetadata self) !! schema = None →
     extend_functions g schema self = (self, Some KeyError))
  ∧ (Str.upper schema ≠ schema →
       (extend_functions g schema
          (extend_schemata [schema] (reset_completions self))).2
       = Some KeyError).
Proof.
  intros Hg. unfold extend_functions. rewrite (escaped_rows_consume _ _ Hg).
  split.
  - intros Hn. cbn [extend_functions_loop]. by rewrite Hn.
  - intros Hu. cbn [extend_functions_loop]. simpl.
    rewrite lookup_insert_ne by done. by rewrite lookup_empty.
Qed.

Lemma extend_functions_unknown_schema_witness :
  extend_functions (of_rows [["RAISE_SALARY"]]) "hr" hr_catalog
  = (hr_catalog, Some KeyError)
  ∧ (extend_functions (of_rows [["RAISE_SALARY"]]) "hr"
       (extend_schemata ["hr"] (reset_completions hr_catalog))).2
    = Some KeyError.
Proof.
  destruct (extend_functions_unknown_schema (of_rows [["RAISE_SALARY"]])
              ["RAISE_SALARY"] [] "hr" hr_catalog eq_refl) as [H1 H2].
  split.
  - apply H1. vm_compute. reflexivity.
  - apply H2. discriminate.
Defined.

(** X15.  [extend_functions] into a schema that is a key of the
    functions map, from rows that each name a function: the call returns
    normally, every function of the batch is stored under that schema
    with the value [None], the tables and the views are untouched, and
    the names are added to [all_completions]. *)
Theorem extend_functions_registers (g : lazy_seq row) (rows : list row)
    (schema : string) (self : SQLCompleter) :
  consume g = Some rows →
  Forall (λ r : row, r ≠ []) rows →
  schema ∈ dom (md_functions (dbmetadata self)) →
  let r := extend_functions g schema self in
  r.2 = None
  ∧ (∀ schema' name,
       getitem2 (md_functions (dbmetadata r.1)) schema' name
       = if decide (schema' = schema ∧ name ∈ heads rows)
         then Some PyNone
         else getitem2 (md_functions (dbmetadata self)) schema' name)
  ∧ md_tables (dbmetadata r.1) = md_tables (dbmetadata self)
  ∧ md_views (dbmetadata r.1) = md_views (dbmetadata self)
  ∧ (∀ x, x ∈ all_completions r.1 ↔ x ∈ heads rows ∨ x ∈ all_completions self).
Proof.
  intros Hg Hne Hd r. subst r. unfold extend_functions.
  rewrite (escaped_rows_consume _ _ Hg).
  destruct (extend_functions_loop_spec schema rows self Hne)
    as (H1 & H2 & H3 & H4 & H5); [by apply elem_of_dom|].
  by split_and!.
Qed.

Lemma extend_functions_registers_witness :
  let r := extend_functions (of_rows [["RAISE_SALARY"; "PROCEDURE"]]) "HR"
             hr_catalog in
  r.2 = None
  ∧ (∀ schema' name,
       getitem2 (md_functions (dbmetadata r.1)) schema' name
       = if decide (schema' = "HR"
                    ∧ name ∈ heads [["RAISE_SALARY"; "PROCEDURE"]])
         then Some PyNone
         else getitem2 (md_functions (dbmetadata hr_catalog)) schema' name)
  ∧ md_tables (dbmetadata r.1) = md_tables (dbmetadata hr_catalog)
  ∧ md_views (dbmetadata r.1) = md_views (dbmetadata hr_catalog)
  ∧ (∀ x, x ∈ all_completions r.1
          ↔ x ∈ heads [["RAISE_SALARY"; "PROCEDURE"]]
            ∨ x ∈ all_completions hr_catalog).
Proof.
  apply (extend_functions_registers (of_rows [["RAISE_SALARY"; "PROCEDURE"]])
           [["RAISE_SALARY"; "PROCEDURE"]] "HR" hr_catalog).
  - reflexivity.
  - repeat constructor; discriminate.
  - apply (bool_decide_unpack _). vm_compute. exact I.
Defined.

Lemma extend_schemata_cons schema schemas self :
  extend_schemata (schema :: schemas) self
  = extend_schemata schemas (_extend_schemata schema self).
Proof. reflexivity. Qed.

(** X16.  After [extend_schemata] every name of the batch, uppercased,
    is a key of each of the three maps and is bound to an empty
    dictionary, whatever the schema held before; the entries of every
    other schema are as they were. *)
Theorem extend_schemata_lookup (schemas : list string) (self : SQLCompleter)
    (k : kind) (s : string) :
  md_get k (dbmetadata (extend_schemata schemas self)) !! s
  = if decide (s ∈ Str.upper <$> schemas) then Some ∅
    else md_get k (dbmetadata self) !! s.
Proof.
  revert self. induction schemas as [|x schemas IH]; intros self.
  - rewrite decide_False; [done|]. apply not_elem_of_nil.
  - rewrite extend_schemata_cons, IH, fmap_cons.
    destruct (decide (s ∈ Str.upper <$> schemas)) as [Hin|Hin].
    + rewrite decide_True; [done|]. by apply list_elem_of_further.
    + destruct (decide (s = Str.upper x)) as [->|Hne].
      * rewrite decide_True by apply list_elem_of_here.
        apply _extend_schemata_maps.
      * rewrite decide_False.
        -- destruct k; simpl; by rewrite lookup_insert_ne.
        -- rewrite elem_of_cons. tauto.
Qed.

Lemma extend_schemata_completions_mono schemas self :
  all_completions self ⊆ all_completions (extend_schemata schemas self).
Proof.
  revert self. induction schemas as [|x schemas IH]; intros self; [done|].
  rewrite extend_schemata_cons. etrans; [|apply IH].
  rewrite _extend_schemata_completions. apply union_subseteq_r.
Qed.

Lemma extend_relations_loop_mono k schema rows self :
  all_completions self
  ⊆ all_completions (extend_relations_loop k schema rows self).1.
Proof.
  revert self. induction rows as [|r rows IH]; intros self; [done|].
  destruct r as [|name rest]; [done|]. cbn [extend_relations_loop].
  etrans; [|apply IH]. simpl.
  destruct (setitem2 _ _ _ _); apply union_subseteq_r.
Qed.

Lemma extend_columns_loop_mono k schema rows self :
  all_completions self
  ⊆ all_completions (extend_columns_loop k schema rows self).1.
Proof.
  revert self. induction rows as [|r rows IH]; intros self; [done|].
  destruct r as [|relname [|column [|? ?]]]; try done.
  cbn [extend_columns_loop].
  destruct (getitem2 _ schema relname) as [[cols|]|]; try done.
  etrans; [|apply IH]. simpl. apply union_subseteq_r.
Qed.

Lemma extend_functions_loop_mono schema rows self :
  all_completions self
  ⊆ all_completions (extend_functions_loop schema rows self).1.
Proof.
  revert self. induction rows as [|r rows IH]; intros self; [done|].
  cbn [extend_functions_loop].
  destruct (md_functions (dbmetadata self) !! schema); [|done].
  destruct r as [|name rest]; [done|].
  etrans; [|apply IH]. simpl. apply union_subseteq_r.
Qed.

(** X17.  No extension operation takes a name out of
    [all_completions]: over any sequence of them, also when some of
    them raise, the set only grows. *)
Theorem all_completions_grows (ops : list op) (self : SQLCompleter) :
  all_completions self ⊆ all_completions (run_ops ops self).
Proof.
  unfold run_ops. revert self.
  induction ops as [|o ops IH]; intros self; [done|].
  simpl. etrans; [|apply IH].
  destruct o as [schemas|data kk schema|data kk schema|data schema|n]; simpl.
  - apply extend_schemata_completions_mono.
  - unfold extend_relations. destruct (kind_of_key kk); [|done].
    apply extend_relations_loop_mono.
  - unfold extend_columns. destruct (kind_of_key kk); [|done].
    apply extend_columns_loop_mono.
  - apply extend_functions_loop_mono.
  - done.
Qed.

(** ** What the cells of a catalog hold *)

Lemma cells_ok_insert k (m : schema_map) schema objs name v :
  m !! schema = Some objs → cell_ok k v → cells_ok k m →
  cells_ok k (<[schema := <[name := v]> objs]> m).
Proof.
  intros Ho Hv Hm schema' name' v'. rewrite getitem2_insert.
  destruct (decide (schema = schema')) as [<-|]; [|apply Hm].
  destruct (decide (name = name')) as [<-|]; [by intros [= <-]|].
  intros Hl. apply (Hm schema name'). unfold getitem2. by rewrite Ho.
Qed.

Lemma catalog_cells_update k schema objs name v self :
  md_get k (dbmetadata self) !! schema = Some objs → cell_ok k v →
  catalog_inv cells_ok self →
  catalog_inv cells_ok
    (with_dbmetadata
       (md_set k (<[schema := <[name := v]> objs]> (md_get k (dbmetadata self)))
          (dbmetadata self)) self).
Proof.
  intros Ho Hv Hi k'. simpl. rewrite md_get_set.
  destruct (decide (k = k')) as [<-|]; [|apply Hi].
  by apply cells_ok_insert.
Qed.

Lemma extend_relations_loop_cells k schema rows self :
  catalog_inv cells_ok self →
  catalog_inv cells_ok (extend_relations_loop k schema rows self).1.
Proof.
  revert self. induction rows as [|r rows IH]; intros self Hi; [done|].
  destruct r as [|name rest]; [done|]. cbn [extend_relations_loop].
  apply IH. unfold setitem2.
  destruct (md_get k (dbmetadata self) !! schema) as [objs|] eqn:E; [|done].
  intros k'. simpl. by apply (catalog_cells_update k schema objs name).
Qed.

Lemma extend_columns_loop_cells k schema rows self :
  catalog_inv cells_ok self →
  catalog_inv cells_ok (extend_columns_loop k schema rows self).1.
Proof.
  revert self. induction rows as [|r rows IH]; intros self Hi; [done|].
  destruct r as [|relname [|column [|? ?]]]; try done.
  cbn [extend_columns_loop].
  destruct (getitem2 _ schema relname) as [[cols|]|] eqn:Hc; try done.
  apply IH. pose proof (Hi k _ _ _ Hc) as Hh. simpl in Hh.
  unfold getitem2 in Hc.
  destruct (md_get k (dbmetadata self) !! schema) as [objs|] eqn:E; [|done].
  intros k'. simpl.
  apply (catalog_cells_update k schema objs relname); [done| |done].
  simpl. by destruct cols.
Qed.

Lemma extend_functions_loop_cells schema rows self :
  catalog_inv cells_ok self →
  catalog_inv cells_ok (extend_functions_loop schema rows self).1.
Proof.
  revert self. induction rows as [|r rows IH]; intros self Hi; [done|].
  cbn [extend_functions_loop].
  destruct (md_functions (dbmetadata self) !! schema) as [objs|] eqn:E; [|done].
  destruct r as [|name rest]; [done|].
  apply IH. intros k'. simpl.
  by apply (catalog_cells_update Functions schema objs name PyNone).
Qed.

Lemma extend_schemata_cells schemas self :
  catalog_inv cells_ok self → catalog_inv cells_ok (extend_schemata schemas self).
Proof.
  revert self. induction schemas as [|x schemas IH]; intros self Hi; [done|].
  rewrite extend_schemata_cons. apply IH.
  intros k schema name v. specialize (Hi k schema name v).
  destruct k; simpl in *; rewrite getitem2_insert_empty;
    by destruct (decide (Str.upper x = schema)).
Qed.

(** X18.  In a catalog built from a reset one by extension operations,
    every cell of the tables and of the views is a column list whose
    first element is the wildcard ['*'], and a [None] cell occurs in the
    functions map only. *)
Theorem catalog_cells_wildcard (ops : list op) (self : SQLCompleter)
    (k : kind) (schema name : string) (v : pyval) :
  getitem2 (md_get k (dbmetadata (run_ops ops (reset_completions self))))
    schema name = Some v →
  match v with
  | PyList cols => head cols = Some "*"
  | PyNone => k = Functions
  end.
Proof.
  assert (Hgen : ∀ st, catalog_inv cells_ok st →
                       catalog_inv cells_ok (run_ops ops st)).
  { unfold run_ops. induction ops as [|o ops IH]; intros st Hst; [done|].
    simpl. apply IH.
    destruct o as [schemas|data kk sch|data kk sch|data sch|n]; simpl.
    - by apply extend_schemata_cells.
    - unfold extend_relations. destruct (kind_of_key kk); [|done].
      by apply extend_relations_loop_cells.
    - unfold extend_columns. destruct (kind_of_key kk); [|done].
      by apply extend_columns_loop_cells.
    - by apply extend_functions_loop_cells.
    - done. }
  assert (Hi : catalog_inv cells_ok (run_ops ops (reset_completions self))).
  { apply Hgen. intros k' s n v'. destruct k'; simpl; unfold getitem2;
      by rewrite lookup_empty. }
  intros Hv. exact (Hi k schema name v Hv).
Qed.

Lemma catalog_cells_wildcard_witness :
  head ["*"; "DEPARTMENT_ID"; "NAME"] = Some "*".
Proof.
  apply (catalog_cells_wildcard hr_ops (init ["FROM"; "SELECT"] [] true [])
           Tables "HR" "DEPARTMENTS" (PyList ["*"; "DEPARTMENT_ID"; "NAME"])).
  vm_compute. reflexivity.
Defined.

(** * Further properties of the resolver and the dispatcher *)

(** X19.  [populate_schema_objects] lists, without repetition, exactly
    the object names stored for the kind under the resolved schema (the
    given schema, or the current database when it is [None] or empty,
    uppercased); a schema that is not registered gives the empty list,
    and an object type that is not a key of [dbmetadata] raises
    [KeyError]. *)
Theorem populate_schema_objects_spec (self : SQLCompleter)
    (schema : option string) (obj_type : string) :
  match kind_of_key obj_type with
  | Some k =>
      ∃ names,
        populate_schema_objects self schema obj_type = Ok names
        ∧ NoDup names
        ∧ ∀ name,
            name ∈ names
            ↔ is_Some (getitem2 (md_get k (dbmetadata self))
                         (Str.upper (py_or schema (dbname self))) name)
  | None => populate_schema_objects self schema obj_type = Raise KeyError
  end.
Proof.
  unfold populate_schema_objects, getitem2.
  destruct (kind_of_key obj_type) as [k|]; [|done].
  destruct (md_get k (dbmetadata self) !! _) as [objs|].
  - exists (dict_keys objs). split_and!; [done|apply NoDup_elements|].
    intros name. unfold dict_keys. by rewrite elem_of_elements, elem_of_dom.
  - exists []. split_and!; [done|constructor|].
    intros name. rewrite elem_of_nil. split; [done|]. by intros [? ?].
Qed.

(** X20.  What a reference resolves to depends on its relation name and
    on its resolved schema only: the alias plays no part, the case of
    the schema plays no part, and leaving the schema out is the same as
    naming the current database. *)
Theorem populate_scoped_cols_ext (self : SQLCompleter)
    (tbls tbls' : list tblref) :
  Forall2 (λ a b, resolved_schema self a = resolved_schema self b
                  ∧ ref_name a = ref_name b) tbls tbls' →
  populate_scoped_cols self tbls = populate_scoped_cols self tbls'.
Proof.
  unfold populate_scoped_cols. generalize (@nil string).
  intros columns H. revert columns.
  induction H as [|a b tbls tbls' [Hs Hn] _ IH]; intros columns; [done|].
  cbn [populate_scoped_cols_loop]. unfold resolved_schema in Hs.
  rewrite Hs, Hn.
  destruct (getitem2 (md_tables _) _ (ref_name b)) as [v|].
  { destruct (list_extend columns v); [apply IH|done]. }
  destruct (getitem2 (md_tables _) _ (escape_name _)) as [v|].
  { destruct (list_extend columns v); [apply IH|done]. }
  destruct (getitem2 (md_views _) _ _) as [v|]; [|apply IH].
  destruct (list_extend columns v); [apply IH|done].
Qed.

Lemma populate_scoped_cols_ext_witness :
  populate_scoped_cols hr_catalog
    [TblRef (Some "Hr") "EMPLOYEES" (Some "e"); TblRef None "DEPARTMENTS" None]
  = populate_scoped_cols hr_catalog
      [TblRef None "EMPLOYEES" None; TblRef (Some "hr") "DEPARTMENTS" (Some "d")].
Proof.
  apply populate_scoped_cols_ext.
  repeat constructor.
Defined.

(** X21.  With [drop_unique] over the columns of a single relation
    whose column names are distinct, nothing is left to suggest. *)
Theorem drop_unique_single (cols : list string) :
  NoDup cols → drop_unique_cols cols = [].
Proof.
  intros Hn. destruct (drop_unique_cols cols) as [|c l] eqn:E; [done|].
  assert (Hc : c ∈ drop_unique_cols cols) by (rewrite E; apply list_elem_of_here).
  apply elem_of_drop_unique_cols in Hc as [Hc _].
  pose proof (count_of_NoDup c cols Hn). lia.
Qed.

Lemma drop_unique_single_witness :
  drop_unique_cols ["*"; "EMPLOYEE_ID"; "FIRST_NAME"] = [].
Proof.
  apply drop_unique_single.
  apply (bool_decide_unpack _). vm_compute. exact I.
Defined.

Section DispatcherMore.

Variable last_word : string → string.
Variable favoritequeries_list : list string.

Lemma populate_scoped_cols_ok self tbls :
  catalog_cols_only self → ∃ cols, populate_scoped_cols self tbls = Ok cols.
Proof.
  intros [Ht Hv]. unfold populate_scoped_cols.
  rewrite populate_scoped_cols_loop_spec by done. eauto.
Qed.

Lemma populate_schema_objects_ok self schema obj_type k :
  kind_of_key obj_type = Some k →
  ∃ names, populate_schema_objects self schema obj_type = Ok names.
Proof.
  intros Hk. unfold populate_schema_objects. rewrite Hk.
  destruct (md_get k (dbmetadata self) !! _); eauto.
Qed.

Lemma suggestion_completions_ok self w sg :
  catalog_cols_only self →
  ∃ cs, suggestion_completions last_word favoritequeries_list self w sg = Ok cs.
Proof.
  intros Hc. unfold suggestion_completions.
  repeat case_decide; eauto;
    match goal with
    | |- context [populate_schema_objects ?s ?sch ?ot] =>
        destruct (populate_schema_objects_ok s sch ot _ eq_refl) as [names ->]
    | |- context [populate_scoped_cols ?s ?t] =>
        destruct (populate_scoped_cols_ok s t Hc) as [cols ->]
    end; eauto.
Qed.

Lemma get_completions_loop_acc self w sgs acc :
  get_completions_loop last_word favoritequeries_list self w sgs acc
  = match get_completions_loop last_word favoritequeries_list self w sgs [] with
    | Ok cs => Ok (acc ++ cs)
    | Raise e => Raise e
    end.
Proof.
  revert acc. induction sgs as [|sg sgs IH]; intros acc; simpl.
  - by rewrite app_nil_r.
  - destruct (suggestion_completions _ _ _ _ _) as [cs|e]; [|done].
    rewrite (IH (acc ++ cs)), (IH cs).
    destruct (get_completions_loop _ _ _ _ _ []); [|done].
    by rewrite app_assoc.
Qed.

Lemma get_completions_loop_app self w sgs1 sgs2 :
  get_completions_loop last_word favoritequeries_list self w (sgs1 ++ sgs2) []
  = match get_completions_loop last_word favoritequeries_list self w sgs1 [] with
    | Ok cs1 =>
        match get_completions_loop last_word favoritequeries_list self w sgs2 []
        with
        | Ok cs2 => Ok (cs1 ++ cs2)
        | Raise e => Raise e
        end
    | Raise e => Raise e
    end.
Proof.
  induction sgs1 as [|sg sgs1 IH]; simpl.
  - by destruct (get_completions_loop _ _ _ _ sgs2 []).
  - destruct (suggestion_completions _ _ _ _ _) as [cs|e]; [|done].
    rewrite (get_completions_loop_acc _ _ (sgs1 ++ sgs2) ([] ++ cs)), IH.
    rewrite (get_completions_loop_acc _ _ sgs1 ([] ++ cs)).
    destruct (get_completions_loop _ _ _ _ sgs1 []); [|done].
    destruct (get_completions_loop _ _ _ _ sgs2 []); [|done].
    by rewrite app_assoc.
Qed.

Lemma get_completions_loop_ok self w sgs :
  catalog_cols_only self →
  ∃ cs, get_completions_loop last_word favoritequeries_list self w sgs [] = Ok cs.
Proof.
  intros Hc. induction sgs as [|sg sgs [cs IH]]; simpl; [eauto|].
  destruct (suggestion_completions_ok self w sg Hc) as [cs' ->].
  rewrite get_completions_loop_acc, IH. eauto.
Qed.

End DispatcherMore.

(** X22.  On a catalog built from a reset one by extension operations,
    [get_completions] never raises: whatever the word, the suggestions
    and the mode, it returns a list of completions. *)
Theorem get_completions_total (last_word : string → string)
    (favoritequeries_list : list string) (ops : list op) (self : SQLCompleter)
    (word : string) (suggestions : list suggestion) (smart : option bool) :
  ∃ cs, get_completions last_word favoritequeries_list
          (run_ops ops (reset_completions self)) word suggestions smart
        = Ok cs.
Proof.
  unfold get_completions. destruct (negb _); [eauto|].
  apply get_completions_loop_ok, run_ops_cols_only, reset_cols_only.
Qed.

(** X23.  The completions for a list of suggestions are the completions
    of each suggestion, concatenated in the order of the suggestions,
    with no re-ranking across them; an exception of one suggestion is
    the outcome of the whole call. *)
Theorem get_completions_app (last_word : string → string)
    (favoritequeries_list : list string) (self : SQLCompleter)
    (word : string) (sgs1 sgs2 : list suggestion) :
  get_completions last_word favoritequeries_list self word (sgs1 ++ sgs2)
    (Some true)
  = match get_completions last_word favoritequeries_list self word sgs1
            (Some true) with
    | Ok cs1 =>
        match get_completions last_word favoritequeries_list self word sgs2
                (Some true) with
        | Ok cs2 => Ok (cs1 ++ cs2)
        | Raise e => Raise e
        end
    | Raise e => Raise e
    end.
Proof. unfold get_completions. simpl. apply get_completions_loop_app. Qed.

(** X24.  A suggestion whose type is none of those the dispatcher knows
    contributes no completion and raises nothing. *)
Theorem unknown_suggestion_type (last_word : string → string)
    (favoritequeries_list : list string) (self : SQLCompleter)
    (word : string) (sg : suggestion) :
  sg_type sg ∉ known_types →
  suggestion_completions last_word favoritequeries_list self word sg = Ok [].
Proof.
  intros Hn. unfold suggestion_completions.
  repeat case_decide; try done; exfalso; apply Hn; unfold known_types;
    repeat match goal with
           | H : _ ∨ _ |- _ => destruct H
           end;
    match goal with
    | H : sg_type sg = _ |- _ => rewrite H
    end;
    apply (bool_decide_unpack _); vm_compute; exact I.
Qed.

Lemma unknown_suggestion_type_witness :
  suggestion_completions last_word_spec [] hr_catalog "sel"
    (Suggestion "procedure" [] None [] false) = Ok [].
Proof.
  apply unknown_suggestion_type.
  apply (bool_decide_unpack _). vm_compute. exact I.
Defined.

(** X25.  With smart completion off, [get_completions] ignores the
    suggestions and returns exactly the members of [all_completions]
    whose lowercased text starts with the token. *)
Theorem get_completions_dumb (last_word : string → string)
    (favoritequeries_list : list string) (self : SQLCompleter)
    (word : string) (suggestions : list suggestion) (smart : option bool) :
  default (smart_completion self) smart = false →
  ∃ cs,
    get_completions last_word favoritequeries_list self word suggestions smart
    = Ok cs
    ∧ ∀ c, c ∈ cs ↔
        text c ∈ all_completions self
        ∧ Str.to_list (Str.lower (last_word word))
            `prefix_of` Str.to_list (Str.lower (text c))
        ∧ start_position c
          = (- Z.of_nat (Str.len (Str.lower (last_word word))))%Z.
Proof.
  intros Hs. unfold get_completions. rewrite Hs. simpl.
  eexists. split; [reflexivity|]. intros c.
  by rewrite elem_of_find_matches_matched, matched_prefix, elem_of_elements.
Qed.

Lemma get_completions_dumb_witness :
  ∃ cs,
    get_completions last_word_spec [] hr_catalog "sel"
      [Suggestion "keyword" [] None [] false] (Some false)
    = Ok cs
    ∧ ∀ c, c ∈ cs ↔
        text c ∈ all_completions hr_catalog
        ∧ Str.to_list (Str.lower (last_word_spec "sel"))
            `prefix_of` Str.to_list (Str.lower (text c))
        ∧ start_position c
          = (- Z.of_nat (Str.len (Str.lower (last_word_spec "sel"))))%Z.
Proof. apply get_completions_dumb. reflexivity. Defined.

(** X26.  Keywords added with [extend_keywords] outlive a reset: the
    keyword list keeps them and [reset_completions] puts them back into
    [all_completions], next to the original keywords and the built-in
    functions. *)
Theorem extend_keywords_reset (additional : list string) (self : SQLCompleter) :
  keywords (reset_completions (extend_keywords additional self))
  = keywords self ++ additional
  ∧ all_completions (reset_completions (extend_keywords additional self))
    = list_to_set additional ∪ all_completions (reset_completions self).
Proof.
  split; [done|]. simpl. apply set_eq. intros x.
  rewrite elem_of_union, !elem_of_list_to_set, !elem_of_app. tauto.
Qed.

Lemma extend_relations_loop_dbname k schema rows self :
  dbname (extend_relations_loop k schema rows self).1 = dbname self.
Proof.
  revert self. induction rows as [|r rows IH]; intros self; [done|].
  destruct r as [|name rest]; [done|]. cbn [extend_relations_loop].
  rewrite IH. simpl. by destruct (setitem2 _ _ _ _).
Qed.

Lemma extend_columns_loop_dbname k schema rows self :
  dbname (extend_columns_loop k schema rows self).1 = dbname self.
Proof.
  revert self. induction rows as [|r rows IH]; intros self; [done|].
  destruct r as [|relname [|column [|? ?]]]; try done.
  cbn [extend_columns_loop].
  destruct (getitem2 _ schema relname) as [[cols|]|]; try done.
  by rewrite IH.
Qed.

Lemma extend_functions_loop_dbname schema rows self :
  dbname (extend_functions_loop schema rows self).1 = dbname self.
Proof.
  revert self. induction rows as [|r rows IH]; intros self; [done|].
  cbn [extend_functions_loop].
  destruct (md_functions (dbmetadata self) !! schema); [|done].
  destruct r as [|name rest]; [done|]. by rewrite IH.
Qed.

Lemma extend_schemata_dbname schemas self :
  dbname (extend_schemata schemas self) = dbname self.
Proof.
  revert self. induction schemas as [|x schemas IH]; intros self; [done|].
  rewrite extend_schemata_cons. by rewrite IH.
Qed.

(** X27.  The current database name is canonically uppercased in every
    catalog built from a reset one by extension operations; only
    [set_dbname] changes it, and it stores the uppercased name. *)
Theorem dbname_uppercased (ops : list op) (self : SQLCompleter) :
  Str.is_upper (dbname (run_ops ops (reset_completions self)))
  ∧ (∀ name st, dbname (run_op (OpSetDbname name) st) = Str.upper name)
  ∧ (∀ o st, (∀ name, o ≠ OpSetDbname name) →
             dbname (run_op o st) = dbname st).
Proof.
  assert (Hop : ∀ o st, (∀ name, o ≠ OpSetDbname name) →
                        dbname (run_op o st) = dbname st).
  { intros o st Ho.
    destruct o as [schemas|data kk sch|data kk sch|data sch|n]; simpl.
    - apply extend_schemata_dbname.
    - unfold extend_relations. destruct (kind_of_key kk); [|done].
      apply extend_relations_loop_dbname.
    - unfold extend_columns. destruct (kind_of_key kk); [|done].
      apply extend_columns_loop_dbname.
    - apply extend_functions_loop_dbname.
    - by destruct (Ho n). }
  split_and!; [|done|exact Hop].
  assert (Hgen : ∀ st, Str.is_upper (dbname st) →
                       Str.is_upper (dbname (run_ops ops st))).
  { unfold run_ops. induction ops as [|o ops IH]; intros st Hst; [done|].
    simpl. apply IH.
    destruct o as [schemas|data kk sch|data kk sch|data sch|n];
      try (rewrite Hop; [done|by intros name]).
    simpl. apply upper_is_upper. }
  apply Hgen. reflexivity.
Qed.

Lemma dbname_uppercased_witness :
  dbname (run_op (OpSchemata ["hr"]) hr_catalog) = dbname hr_catalog.
Proof.
  apply (proj2 (proj2 (dbname_uppercased [] hr_catalog))).
  intros name. discriminate.
Defined.
